(** * ccmap: a sharded string-keyed map (syncmap.go)

    A shallow embedding of [src/syncmap.go] and the properties its
    specification states about it.

    Modelling choices.
    - Go's [int] and [uint32] are [Z]; every [uint32] operation is followed by
      its wrap-around [mod 2^32], and the conversion [uint32(x)] of an [int]
      is [x mod 2^32].
    - A Go [string] is a sequence of bytes: Rocq's [string], whose characters
      are the 8-bit [ascii].
    - [map[string]interface{}] is [gmap string V]; [V] stands for
      [interface{}] and carries its zero value [nil_value].
    - A run-time panic is an explicit outcome, so an operation that may panic
      returns an [outcome].
    - The locks are not modelled: the development describes one caller at a
      time, which is what the sequential clauses of the specification are
      about.
    - What Go leaves to the run time is an explicit argument: the order in
      which [range] yields the entries of a map ([order]) and the numbers
      [rand.Intn] returns ([draws]). *)

From Stdlib Require Import ZArith Ascii String.
From stdpp Require Import gmap strings list fin_maps.

Local Open Scope Z_scope.

(** ** Outcomes of operations that may panic

    A call returns a value, panics with a message, or, for the retry loop of
    [Pop], is still running when the random draws supplied to it are used
    up. *)

Inductive outcome (A : Type) : Type :=
  | Returned (a : A)
  | Panicked (msg : string)
  | Spinning.
Arguments Returned {A} a.
Arguments Panicked {A} msg.
Arguments Spinning {A}.

#[global] Instance outcome_ret : MRet outcome := fun A a => Returned a.
#[global] Instance outcome_bind : MBind outcome := fun A B f o =>
  match o with
  | Returned a => f a
  | Panicked msg => Panicked msg
  | Spinning => Spinning
  end.

Definition index_out_of_range : string := "runtime error: index out of range".
Definition makeslice_len_out_of_range : string :=
  "runtime error: makeslice: len out of range".
Definition map_is_empty : string := "syncmap: map is empty".
Definition intn_invalid_argument : string := "invalid argument to Intn".

(** ** The hash router: [fnv32] *)

Definition uint32 (x : Z) : Z := x mod 2 ^ 32.

Definition byte_of (c : ascii) : Z := Z.of_N (N_of_ascii c).

Definition prime32 : Z := 16777619.

(** The body of the [for i := 0; i < len(key); i++] loop, run over the
    remaining bytes of the key with the current [hash]. *)
Fixpoint fnv32_loop (key : string) (hash : Z) : Z :=
  match key with
  | EmptyString => hash
  | String c rest =>
      let hash := uint32 (hash * prime32) in
      let hash := Z.lxor hash (uint32 (byte_of c)) in
      fnv32_loop rest hash
  end.

Definition fnv32 (key : string) : Z := fnv32_loop key (uint32 2166136261).

(** The index [fnv32(key) & uint32(shardCount-1)] used by [locate]. *)
Definition shard_index (shardCount : Z) (key : string) : Z :=
  Z.land (fnv32 key) (uint32 (shardCount - 1)).

(** The hash as the specification words it: a left-to-right pass over the
    bytes of the key, multiply then xor, modulo [2^32]. *)
Definition key_bytes (key : string) : list Z :=
  byte_of <$> list_ascii_of_string key.

Definition fnv1_style_hash (bytes : list Z) : Z :=
  fold_left (fun h b => Z.lxor ((h * 16777619) mod 2 ^ 32) b) bytes 2166136261.

(** ** Library functions the container calls *)

(** Go's [strings.Join]: nothing for no element, the element itself for one,
    otherwise the first element followed by separator and element for each
    further one, written to a builder from left to right. *)
Definition strings_Join (elems : list string) (sep : string) : string :=
  match elems with
  | [] => ""
  | [e] => e
  | e :: rest => fold_left (fun b s => (b +:+ sep) +:+ s) rest e
  end.

(** Indexing a slice: a run-time panic outside [0, len). *)
Definition slice_index {A} (s : list A) (i : Z) : outcome A :=
  if decide (0 ≤ i) then
    match s !! Z.to_nat i with
    | Some x => Returned x
    | None => Panicked index_out_of_range
    end
  else Panicked index_out_of_range.

(** ** The container *)

(** [interface{}] with its zero value. *)
Class ZeroValue (V : Type) := nil_value : V.

Definition defaultShardCount : Z := 128.

Section syncmap.
Context {V : Type} `{!ZeroValue V}.

Record ShardMap := mkShardMap { items : gmap string V }.

Record SyncMap := mkSyncMap {
  shardCount : Z;
  shards : list ShardMap
}.

Record Item := mkItem { Key : string; Value : V }.

(** The two-result map read [v, ok := items[key]]. *)
Definition map_index (items : gmap string V) (key : string) : V * bool :=
  match items !! key with
  | Some v => (v, true)
  | None => (nil_value, false)
  end.

(** [len(items)] *)
Definition len (items : gmap string V) : Z := Z.of_nat (size items).

(** The order in which one [range] over the map of the shard at a position
    yields its entries: the run time's choice. *)
Definition range_order : Type := nat → gmap string V → list (string * V).

Definition NewWithShard (shardCount : Z) : outcome SyncMap :=
  let shardCount :=
    if decide (shardCount = 0) then defaultShardCount else shardCount in
  if decide (shardCount < 0) then Panicked makeslice_len_out_of_range
  else
    Returned {| shardCount := shardCount;
                shards := replicate (Z.to_nat shardCount) (mkShardMap ∅) |}.

Definition New : outcome SyncMap := NewWithShard defaultShardCount.

(** [locate] returns a pointer into [m.shards]: here the position of the
    shard and the shard found there. *)
Definition locate (m : SyncMap) (key : string) : outcome (nat * ShardMap) :=
  let i := shard_index (shardCount m) key in
  shard ← slice_index (shards m) i;
  mret (Z.to_nat i, shard).

(** A write through the pointer [locate] returned. *)
Definition store_shard (m : SyncMap) (i : nat) (shard : ShardMap) : SyncMap :=
  {| shardCount := shardCount m; shards := <[i := shard]> (shards m) |}.

Definition Get (m : SyncMap) (key : string) : outcome (V * bool) :=
  '(_, shard) ← locate m key;
  mret (map_index (items shard) key).

Definition GetJoinKey (m : SyncMap) (key : list string) : outcome (V * bool) :=
  Get m (strings_Join key "-").

Definition Set_ (m : SyncMap) (key : string) (value : V) : outcome SyncMap :=
  '(i, shard) ← locate m key;
  mret (store_shard m i (mkShardMap (<[key := value]> (items shard)))).

Definition Delete (m : SyncMap) (key : string) : outcome SyncMap :=
  '(i, shard) ← locate m key;
  mret (store_shard m i (mkShardMap (delete key (items shard)))).

Definition Has (m : SyncMap) (key : string) : outcome bool :=
  '(_, ok) ← Get m key;
  mret ok.

Definition Size (m : SyncMap) : Z :=
  fold_left (fun size shard => size + len (items shard)) (shards m) 0.

Fixpoint Flush_loop (shs : list ShardMap) (size : Z) : Z * list ShardMap :=
  match shs with
  | [] => (size, [])
  | shard :: rest =>
      let size := size + len (items shard) in
      let shard := mkShardMap ∅ in
      let '(size, rest) := Flush_loop rest size in
      (size, shard :: rest)
  end.

Definition Flush (m : SyncMap) : Z * SyncMap :=
  let '(size, shs) := Flush_loop (shards m) 0 in
  (size, {| shardCount := shardCount m; shards := shs |}).

(** The [for !found] loop of [Pop]. [draws] are the results of the successive
    [rand.Intn(n)] calls; when they run out the loop is still looking. The
    result is paired with the container as the call leaves it. *)
Fixpoint Pop_loop (draws : list Z) (order : range_order) (m : SyncMap) (n : Z)
  : outcome (string * V) * SyncMap :=
  if decide (n ≤ 0) then (Panicked intn_invalid_argument, m)
  else
    match draws with
    | [] => (Spinning, m)
    | idx :: draws =>
        match slice_index (shards m) idx with
        | Returned shard =>
            if decide (len (items shard) > 0) then
              let '(key, value) :=
                match order (Z.to_nat idx) (items shard) with
                | entry :: _ => entry
                | [] => (""%string, nil_value)
                end in
              (Returned (key, value),
               store_shard m (Z.to_nat idx)
                 (mkShardMap (delete key (items shard))))
            else Pop_loop draws order m n
        | Panicked msg => (Panicked msg, m)
        | Spinning => (Spinning, m)
        end
    end.

Definition Pop (draws : list Z) (order : range_order) (m : SyncMap)
  : outcome (string * V) * SyncMap :=
  if decide (Size m = 0) then (Panicked map_is_empty, m)
  else Pop_loop draws order m (shardCount m).

(** *** Iteration

    A visitor is a Go closure: it reads and writes the state [S] of its
    caller and tells whether to go on. *)

Section visitors.
Context {S : Type}.

(** [for key, _ := range shard.items { if !iter(key) { stop = true; break } }]:
    the state after the loop and the value of [stop]. *)
Fixpoint range_keys_with_break (iter : string → S → S * bool)
    (entries : list (string * V)) (s : S) : S * bool :=
  match entries with
  | [] => (s, false)
  | (key, _) :: entries =>
      let '(s, continue) := iter key s in
      if continue then range_keys_with_break iter entries s else (s, true)
  end.

Fixpoint EachKeyWithBreak_loop (order : range_order)
    (iter : string → S → S * bool) (i : nat) (shs : list ShardMap) (s : S) : S :=
  match shs with
  | [] => s
  | shard :: shs =>
      let '(s, stop) := range_keys_with_break iter (order i (items shard)) s in
      if stop then s else EachKeyWithBreak_loop order iter (Datatypes.S i) shs s
  end.

Definition EachKeyWithBreak (order : range_order) (m : SyncMap)
    (iter : string → S → S * bool) (s : S) : S :=
  EachKeyWithBreak_loop order iter 0%nat (shards m) s.

Fixpoint range_items_with_break (iter : Item → S → S * bool)
    (entries : list (string * V)) (s : S) : S * bool :=
  match entries with
  | [] => (s, false)
  | (key, value) :: entries =>
      let '(s, continue) := iter (mkItem key value) s in
      if continue then range_items_with_break iter entries s else (s, true)
  end.

Fixpoint EachItemWithBreak_loop (order : range_order)
    (iter : Item → S → S * bool) (i : nat) (shs : list ShardMap) (s : S) : S :=
  match shs with
  | [] => s
  | shard :: shs =>
      let '(s, stop) := range_items_with_break iter (order i (items shard)) s in
      if stop then s else EachItemWithBreak_loop order iter (Datatypes.S i) shs s
  end.

Definition EachItemWithBreak (order : range_order) (m : SyncMap)
    (iter : Item → S → S * bool) (s : S) : S :=
  EachItemWithBreak_loop order iter 0%nat (shards m) s.

Definition EachItem (order : range_order) (m : SyncMap)
    (iter : Item → S → S) (s : S) : S :=
  let f := fun item s => (iter item s, true) in
  EachItemWithBreak order m f s.

End visitors.

End syncmap.

Arguments ShardMap V : clear implicits.
Arguments SyncMap V : clear implicits.
Arguments Item V : clear implicits.
Arguments range_order V : clear implicits.

(** ** Sequences of operations *)

Section traces.
Context {V : Type} `{!ZeroValue V}.

Inductive op : Type :=
  | OpSet (key : string) (value : V)
  | OpDelete (key : string)
  | OpGet (key : string)
  | OpHas (key : string)
  | OpGetJoinKey (key : list string)
  | OpSize
  | OpFlush
  | OpPop (draws : list Z) (order : range_order V).

(** The container as a call leaves it, whether the call returned or
    panicked. *)
Definition apply_op (o : op) (m : SyncMap V) : SyncMap V :=
  match o with
  | OpSet key value =>
      match Set_ m key value with Returned m' => m' | _ => m end
  | OpDelete key =>
      match Delete m key with Returned m' => m' | _ => m end
  | OpFlush => snd (Flush m)
  | OpPop draws order => snd (Pop draws order m)
  | OpGet _ | OpHas _ | OpGetJoinKey _ | OpSize => m
  end.

Definition apply_ops (ops : list op) (m : SyncMap V) : SyncMap V :=
  fold_left (fun m o => apply_op o m) ops m.

(** The key a call of [Pop] returned, if it returned. *)
Definition popped_key (r : outcome (string * V)) : option string :=
  match r with
  | Returned (key, _) => Some key
  | _ => None
  end.

(** [o], called on [m], is one of the calls that end the binding of [k]:
    [Set(k, _)], [Delete(k)], [Flush()], or a [Pop()] that returns [k]. *)
Definition ends_binding (k : string) (o : op) (m : SyncMap V) : bool :=
  match o with
  | OpSet key _ | OpDelete key => bool_decide (key = k)
  | OpFlush => true
  | OpPop draws order => bool_decide (popped_key (fst (Pop draws order m)) = Some k)
  | OpGet _ | OpHas _ | OpGetJoinKey _ | OpSize => false
  end.

Fixpoint undisturbed (k : string) (ops : list op) (m : SyncMap V) : bool :=
  match ops with
  | [] => true
  | o :: ops => negb (ends_binding k o m) && undisturbed k ops (apply_op o m)
  end.

(** [o] is neither [Set(k, _)] nor [Delete(k)]. *)
Definition not_set_or_delete (k : string) (o : op) : Prop :=
  match o with
  | OpSet key _ | OpDelete key => key ≠ k
  | _ => True
  end.

(** [o] is not [Set(k, _)]. *)
Definition not_set (k : string) (o : op) : Prop :=
  match o with
  | OpSet key _ => key ≠ k
  | _ => True
  end.

(** ** Well-formed containers *)

(** What the constructor establishes and no operation changes: a positive
    shard count, and as many shards as it says. *)
Definition wf (m : SyncMap V) : Prop :=
  0 < shardCount m ∧ Z.of_nat (length (shards m)) = shardCount m.

(** The position [locate] computes for a key. *)
Definition home (m : SyncMap V) (key : string) : nat :=
  Z.to_nat (shard_index (shardCount m) key).

(** Every key is stored in the shard [locate] finds for it. *)
Definition homed (m : SyncMap V) : Prop :=
  ∀ i shard key,
    shards m !! i = Some shard → is_Some (items shard !! key) → home m key = i.

(** The entry of [key] in the shard [locate] finds for it, if there is
    one. *)
Definition stored (m : SyncMap V) (key : string) : option V :=
  shard ← shards m !! home m key; items shard !! key.

(** The entries of a [range] come from the map, each once. *)
Definition range_ok (order : range_order V) : Prop :=
  ∀ i (items : gmap string V), order i items ≡ₚ map_to_list items.

(** A draw that finds a shard with entries. *)
Definition draw_hits (m : SyncMap V) (d : Z) : bool :=
  match slice_index (shards m) d with
  | Returned shard => bool_decide (len (items shard) > 0)
  | _ => false
  end.

(** The sum [Size] computes, over any list of shards. *)
Definition sum_len (shs : list (ShardMap V)) : Z :=
  fold_left (fun size shard => size + len (items shard)) shs 0.

(** *** What a traversal is measured against *)

Definition item_of (entry : string * V) : Item V :=
  mkItem entry.1 entry.2.

(** The entries the container holds: those of its shards, shard by shard. *)
Definition entries_of (shs : list (ShardMap V)) : list (string * V) :=
  concat ((fun shard => map_to_list (items shard)) <$> shs).

Definition entries (m : SyncMap V) : list (string * V) :=
  entries_of (shards m).

(** The entries in the order a traversal meets them: the shards in slice
    order, each in the order its [range] yields. *)
Fixpoint traversal_from (order : range_order V) (i : nat)
    (shs : list (ShardMap V)) : list (string * V) :=
  match shs with
  | [] => []
  | shard :: shs => order i (items shard) ++ traversal_from order (S i) shs
  end.

Definition traversal (order : range_order V) (m : SyncMap V)
  : list (string * V) :=
  traversal_from order 0%nat (shards m).

End traces.

(** *** Visitors and their calls *)

Section calls.
Context {A S : Type}.

(** The state after the visitor was called on every element of [l] and said
    "go on" each time; [None] if it said "stop" at some element. *)
Fixpoint visits_through (iter : A → S → S * bool) (l : list A) (s : S)
  : option S :=
  match l with
  | [] => Some s
  | a :: l =>
      let '(s, continue) := iter a s in
      if continue then visits_through iter l s else None
  end.

(** Calling the visitor along [l] up to and including the first element at
    which it says "stop". *)
Fixpoint visit_until (iter : A → S → S * bool) (l : list A) (s : S) : S :=
  match l with
  | [] => s
  | a :: l =>
      let '(s, continue) := iter a s in
      if continue then visit_until iter l s else s
  end.

(** The visitor [iter] made to keep, next to its own state, the list of the
    arguments it was called with. *)
Definition logging (iter : A → S → S * bool)
  : A → S * list A → (S * list A) * bool :=
  fun a '(s, log) =>
    let '(s, continue) := iter a s in
    ((s, log ++ [a]), continue).

End calls.

(** ** The methods of a shard, and the accessors that hand shards out *)

Section shard_methods.
Context {V : Type} `{!ZeroValue V}.

Definition GetItems (sd : ShardMap V) : gmap string V := items sd.

Definition GetNotLock (sd : ShardMap V) (key : string) : V * bool :=
  map_index (items sd) key.

Definition SetNotLock (sd : ShardMap V) (key : string) (val : V) : ShardMap V :=
  mkShardMap (<[key := val]> (items sd)).

Definition DeleteNotLock (sd : ShardMap V) (key : string) : ShardMap V :=
  mkShardMap (delete key (items sd)).

(** The locked variants do the same map operation between taking and
    releasing the lock. *)
Definition GetWithLock (sd : ShardMap V) (key : string) : V * bool :=
  map_index (items sd) key.

Definition SetWithLock (sd : ShardMap V) (key : string) (val : V) : ShardMap V :=
  mkShardMap (<[key := val]> (items sd)).

Definition DeleteWithLock (sd : ShardMap V) (key : string) : ShardMap V :=
  mkShardMap (delete key (items sd)).

Definition Locate (m : SyncMap V) (key : string) : outcome (nat * ShardMap V) :=
  locate m key.

Definition GetShards (m : SyncMap V) : list (ShardMap V) := shards m.

(** The map of the shard [locate] finds for [key], changed by [f]: what a
    write of [Set] or [Delete] amounts to on a well-formed container. *)
Definition update_home (m : SyncMap V) (key : string)
    (f : gmap string V → gmap string V) : SyncMap V :=
  match shards m !! home m key with
  | Some shard => store_shard m (home m key) (mkShardMap (f (items shard)))
  | None => m
  end.

(** The calls [Set(k1, v1), Set(k2, v2), ...] for a list of pairs. *)
Definition sets (kvs : list (string * V)) : list (@op V) :=
  (fun kv => OpSet kv.1 kv.2) <$> kvs.

End shard_methods.

(** ** A concrete [interface{}] for the examples *)

Inductive go_value : Type :=
  | GoNil
  | GoInt (n : Z)
  | GoString (s : string).

#[global] Instance go_value_zero : ZeroValue go_value := GoNil.

(** [range] in the order of [map_to_list], and in the reverse of it. *)
Definition order_listed {V} : range_order V := fun _ items => map_to_list items.
Definition order_reversed {V} : range_order V :=
  fun _ items => reverse (map_to_list items).

(** Two containers of four shards: a fresh one, and one holding
    ["a"], ["b"] and ["c"]. *)
Definition example_empty : SyncMap go_value :=
  mkSyncMap 4 (replicate 4 (mkShardMap ∅)).

Definition example_abc : SyncMap go_value :=
  apply_ops [OpSet "a" (GoInt 1); OpSet "b" (GoInt 2); OpSet "c" (GoInt 3)]
    example_empty.

(** A fresh container of three shards: a count that is no power of two. *)
Definition example_three : SyncMap go_value :=
  mkSyncMap 3 (replicate 3 (mkShardMap ∅)).

(** Two visitors that count their calls and stop at the key ["b"]. *)
Definition stop_at_b_item : Item go_value → nat → nat * bool :=
  fun item calls => (S calls, bool_decide (Key item ≠ "b")).

Definition stop_at_b_key : string → nat → nat * bool :=
  fun key calls => (S calls, bool_decide (key ≠ "b")).

(** * Properties *)

(** ** Bounds of the hash *)

Lemma byte_of_range c : 0 ≤ byte_of c < 256.
Proof.
  unfold byte_of. pose proof (N_ascii_bounded c) as H. lia.
Qed.

Lemma uint32_range x : 0 ≤ uint32 x < 2 ^ 32.
Proof. unfold uint32. apply Z.mod_pos_bound. lia. Qed.

Lemma uint32_small x : 0 ≤ x < 2 ^ 32 → uint32 x = x.
Proof. intros H. unfold uint32. by apply Z.mod_small. Qed.

Lemma lxor_uint32_range a b :
  0 ≤ a < 2 ^ 32 → 0 ≤ b < 2 ^ 32 → 0 ≤ Z.lxor a b < 2 ^ 32.
Proof.
  intros Ha Hb.
  assert (0 ≤ Z.lxor a b) as Hnn by (apply Z.lxor_nonneg; lia).
  split; [done|].
  destruct (decide (Z.lxor a b = 0)) as [->|Hne]; [lia|].
  apply Z.log2_lt_pow2; [lia|].
  pose proof (Z.log2_lxor a b ltac:(lia) ltac:(lia)) as Hlog.
  assert (Z.log2 a < 32) as Hla.
  { destruct (decide (a = 0)) as [->|]; [simpl; lia|].
    apply Z.log2_lt_pow2; lia. }
  assert (Z.log2 b < 32) as Hlb.
  { destruct (decide (b = 0)) as [->|]; [simpl; lia|].
    apply Z.log2_lt_pow2; lia. }
  lia.
Qed.

Lemma fnv32_loop_range key hash :
  0 ≤ hash < 2 ^ 32 → 0 ≤ fnv32_loop key hash < 2 ^ 32.
Proof.
  revert hash. induction key as [|c rest IH]; intros hash Hh; simpl; [done|].
  apply IH, lxor_uint32_range; [apply uint32_range|].
  rewrite uint32_small; pose proof (byte_of_range c); lia.
Qed.

Lemma fnv32_range key : 0 ≤ fnv32 key < 2 ^ 32.
Proof. apply fnv32_loop_range, uint32_range. Qed.

Lemma fnv32_loop_fold key hash :
  fnv32_loop key hash =
  fold_left (fun h b => Z.lxor ((h * 16777619) mod 2 ^ 32) b) (key_bytes key) hash.
Proof.
  revert hash. induction key as [|c rest IH]; intros hash; [done|].
  simpl. rewrite IH. unfold key_bytes. simpl. f_equal.
  rewrite (uint32_small (byte_of c)); [done|].
  pose proof (byte_of_range c); lia.
Qed.

Lemma fnv32_spec key : fnv32 key = fnv1_style_hash (key_bytes key).
Proof. unfold fnv32. rewrite fnv32_loop_fold. done. Qed.

Lemma land_le_r a b : 0 ≤ b → Z.land a b ≤ b.
Proof.
  intros Hb. apply Z.ldiff_le; [done|].
  apply Z.bits_inj'. intros n Hn.
  rewrite Z.ldiff_spec, Z.land_spec, Z.bits_0.
  by destruct (Z.testbit a n), (Z.testbit b n).
Qed.

(** The index stays inside the shard slice for every positive count, a power
    of two or not. *)
Lemma shard_index_range n key : 0 < n → 0 ≤ shard_index n key < n.
Proof.
  intros Hn. unfold shard_index.
  pose proof (fnv32_range key) as Hh.
  pose proof (uint32_range (n - 1)) as Hm.
  split; [apply Z.land_nonneg; lia|].
  pose proof (land_le_r (fnv32 key) (uint32 (n - 1)) ltac:(lia)).
  assert (uint32 (n - 1) ≤ n - 1); [|lia].
  unfold uint32. apply Z.mod_le; lia.
Qed.

(** For a power of two the conversion of the mask to [uint32] loses nothing:
    masking with [uint32(shardCount-1)] is masking with [shardCount-1]. *)
Lemma shard_index_pow2 k key :
  0 ≤ k → shard_index (2 ^ k) key = Z.land (fnv32 key) (2 ^ k - 1).
Proof.
  intros Hk. unfold shard_index.
  pose proof (fnv32_range key) as Hh.
  destruct (decide (k ≤ 32)) as [Hle|Hgt].
  - rewrite uint32_small; [done|].
    assert (2 ^ k ≤ 2 ^ 32) by (apply Z.pow_le_mono_r; lia).
    assert (0 < 2 ^ k) by (apply Z.pow_pos_nonneg; lia). lia.
  - assert (uint32 (2 ^ k - 1) = Z.ones 32) as ->.
    { unfold uint32. rewrite Z.ones_equiv.
      replace (2 ^ k) with (2 ^ (k - 32) * 2 ^ 32)
        by (rewrite <-Z.pow_add_r; [f_equal|..]; lia).
      replace (2 ^ (k - 32) * 2 ^ 32 - 1)
        with (2 ^ 32 - 1 + (2 ^ (k - 32) - 1) * 2 ^ 32) by lia.
      rewrite Z.mod_add by lia. by apply Z.mod_small. }
    replace (2 ^ k - 1) with (Z.ones k) by (rewrite Z.ones_equiv; lia).
    rewrite !Z.land_ones by lia.
    assert (2 ^ 32 ≤ 2 ^ k) by (apply Z.pow_le_mono_r; lia).
    rewrite !Z.mod_small; lia.
Qed.

(** ** The container *)

Section properties.
Context {V : Type} `{!ZeroValue V}.
Implicit Types (m : SyncMap V) (key k : string) (order : range_order V).

Lemma home_lt m key : wf m → (home m key < length (shards m))%nat.
Proof.
  intros [Hpos Hlen]. unfold home.
  pose proof (shard_index_range (shardCount m) key Hpos). lia.
Qed.

Lemma slice_index_lookup {A} (s : list A) (i : Z) x :
  slice_index s i = Returned x ↔ 0 ≤ i ∧ s !! Z.to_nat i = Some x.
Proof.
  unfold slice_index. case_decide as Hi.
  - destruct (s !! Z.to_nat i) eqn:E; split; try done.
    + by intros [= ->].
    + by intros [_ [= ->]].
    + by intros [_ [=]].
  - split; [done|]. intros [? _]. lia.
Qed.

Lemma locate_wf m key :
  wf m →
  ∃ shard, shards m !! home m key = Some shard ∧
           locate m key = Returned (home m key, shard).
Proof.
  intros Hwf.
  destruct (lookup_lt_is_Some_2 _ _ (home_lt m key Hwf)) as [shard Hsh].
  exists shard. split; [done|].
  unfold locate. destruct Hwf as [Hpos _].
  pose proof (shard_index_range (shardCount m) key Hpos) as Hr.
  assert (slice_index (shards m) (shard_index (shardCount m) key)
          = Returned shard) as ->; [|done].
  apply slice_index_lookup. split; [lia|done].
Qed.

Lemma wf_store_shard m i shard : wf m → wf (store_shard m i shard).
Proof.
  intros [Hpos Hlen]. split; simpl; [done|]. by rewrite length_insert.
Qed.

Lemma home_store_shard m i shard key :
  home (store_shard m i shard) key = home m key.
Proof. done. Qed.

Lemma Get_wf m key :
  wf m →
  ∃ shard, shards m !! home m key = Some shard ∧
           Get m key = Returned (map_index (items shard) key).
Proof.
  intros Hwf. destruct (locate_wf m key Hwf) as (shard & Hsh & Hloc).
  exists shard. split; [done|]. unfold Get. by rewrite Hloc.
Qed.

Lemma Set_wf m key value :
  wf m →
  ∃ shard, shards m !! home m key = Some shard ∧
           Set_ m key value =
           Returned (store_shard m (home m key)
                       (mkShardMap (<[key := value]> (items shard)))).
Proof.
  intros Hwf. destruct (locate_wf m key Hwf) as (shard & Hsh & Hloc).
  exists shard. split; [done|]. unfold Set_. by rewrite Hloc.
Qed.

Lemma Delete_wf m key :
  wf m →
  ∃ shard, shards m !! home m key = Some shard ∧
           Delete m key =
           Returned (store_shard m (home m key)
                       (mkShardMap (delete key (items shard)))).
Proof.
  intros Hwf. destruct (locate_wf m key Hwf) as (shard & Hsh & Hloc).
  exists shard. split; [done|]. unfold Delete. by rewrite Hloc.
Qed.

(** Reading [key] after a write to the shard at [i]. *)
Lemma Get_store_shard m i shard key :
  wf m → (i < length (shards m))%nat →
  Get (store_shard m i shard) key =
  if decide (home m key = i) then Returned (map_index (items shard) key)
  else Get m key.
Proof.
  intros Hwf Hi.
  destruct (Get_wf _ key (wf_store_shard m i shard Hwf)) as (sh' & Hsh' & ->).
  rewrite home_store_shard in Hsh'. simpl in Hsh'.
  case_decide as Hhome.
  - subst i. rewrite list_lookup_insert_eq in Hsh' by done. by inversion Hsh'.
  - rewrite list_lookup_insert_ne in Hsh' by done.
    destruct (Get_wf m key Hwf) as (sh & Hsh & ->). congruence.
Qed.

(** *** The size of a container *)

Lemma fold_len_shift (shs : list (ShardMap V)) a :
  fold_left (fun size shard => size + len (items shard)) shs a = a + sum_len shs.
Proof.
  unfold sum_len. revert a. induction shs as [|sh shs IH]; intros a; simpl; [lia|].
  rewrite IH, (IH (0 + _)). lia.
Qed.

Lemma sum_len_cons sh (shs : list (ShardMap V)) :
  sum_len (sh :: shs) = len (items sh) + sum_len shs.
Proof. unfold sum_len at 1. simpl. rewrite fold_len_shift. lia. Qed.

Lemma len_nonneg (items : gmap string V) : 0 ≤ len items.
Proof. unfold len. lia. Qed.

Lemma len_zero_iff (items : gmap string V) : len items = 0 ↔ items = ∅.
Proof.
  unfold len. rewrite <-map_size_empty_iff. lia.
Qed.

Lemma sum_len_nonneg (shs : list (ShardMap V)) : 0 ≤ sum_len shs.
Proof.
  induction shs as [|sh shs IH]; [done|].
  rewrite sum_len_cons. pose proof (len_nonneg (items sh)). lia.
Qed.

Lemma sum_len_zero_iff (shs : list (ShardMap V)) :
  sum_len shs = 0 ↔ Forall (fun shard => items shard = ∅) shs.
Proof.
  induction shs as [|sh shs IH]; [by split|].
  rewrite sum_len_cons, Forall_cons, <-IH, <-len_zero_iff.
  pose proof (len_nonneg (items sh)). pose proof (sum_len_nonneg shs). lia.
Qed.

Lemma Size_zero_iff m :
  Size m = 0 ↔ Forall (fun shard => items shard = ∅) (shards m).
Proof. apply sum_len_zero_iff. Qed.

Lemma sum_len_insert (shs : list (ShardMap V)) i sh sh' :
  shs !! i = Some sh →
  sum_len (<[i := sh']> shs) = sum_len shs - len (items sh) + len (items sh').
Proof.
  revert i. induction shs as [|x shs IH]; intros [|i] Hi; simplify_eq/=.
  - rewrite !sum_len_cons. lia.
  - rewrite !sum_len_cons, (IH i Hi). lia.
Qed.

Lemma Size_store_shard m i sh sh' :
  shards m !! i = Some sh →
  Size (store_shard m i sh') = Size m - len (items sh) + len (items sh').
Proof. apply sum_len_insert. Qed.

(** *** The router *)

(** C2: for a shard count that is a power of two, the index [locate] uses is
    the hash of the specification (seed 2166136261, then for each byte of the
    key in order multiply by 16777619 and xor in the byte, modulo 2^32) masked
    with [shardCount - 1]; it lies in [0, shardCount); and it is the position
    [locate] finds on every container with that shard count, whatever the
    container holds. *)
Theorem router_index_pow2 key (k : Z) :
  0 ≤ k →
  let n := 2 ^ k in
  let idx := shard_index n key in
  idx = Z.land (fnv1_style_hash (key_bytes key)) (n - 1)
  ∧ 0 ≤ idx < n
  ∧ ∀ m, shardCount m = n → Z.of_nat (length (shards m)) = n →
      ∃ shard, shards m !! Z.to_nat idx = Some shard
               ∧ locate m key = Returned (Z.to_nat idx, shard).
Proof.
  intros Hk n idx.
  assert (0 < n) as Hn by (apply Z.pow_pos_nonneg; lia).
  split; [|split].
  - unfold idx, n. by rewrite shard_index_pow2, fnv32_spec.
  - by apply shard_index_range.
  - intros m Hc Hl.
    assert (wf m) as Hwf by (unfold wf; lia).
    destruct (locate_wf m key Hwf) as (shard & Hsh & Hloc).
    unfold home in *. rewrite Hc in *. by exists shard.
Qed.

(** *** Joined keys *)

Lemma append_nil_r (s : string) : s +:+ "" = s.
Proof.
  induction s as [|c s IH]; [done|].
  change (String c (s +:+ "") = String c s). by rewrite IH.
Qed.

Lemma append_assoc (s1 s2 s3 : string) :
  (s1 +:+ s2) +:+ s3 = s1 +:+ (s2 +:+ s3).
Proof.
  induction s1 as [|c s1 IH]; [done|].
  change (String c ((s1 +:+ s2) +:+ s3) = String c (s1 +:+ (s2 +:+ s3))).
  by rewrite IH.
Qed.

Lemma Join_builder_concat (sep e : string) (rest : list string) (b : string) :
  fold_left (fun b s => (b +:+ sep) +:+ s) rest (b +:+ e) =
  b +:+ String.concat sep (e :: rest).
Proof.
  revert b e. induction rest as [|e' rest IH]; intros b e; [done|].
  cbn [fold_left]. rewrite !append_assoc, <-(append_assoc e), <-append_assoc.
  rewrite IH. rewrite !append_assoc.
  change (String.concat sep (e :: e' :: rest))
    with (e +:+ sep +:+ String.concat sep (e' :: rest)).
  done.
Qed.

Lemma strings_Join_concat (elems : list string) (sep : string) :
  strings_Join elems sep = String.concat sep elems.
Proof.
  destruct elems as [|e [|e' rest]]; [done..|].
  exact (Join_builder_concat sep e (e' :: rest) "").
Qed.

(** C9: [GetJoinKey] of the parts is [Get] of the one string made of the
    parts with a ["-"] between neighbours; [GetJoinKey("user", "42")] is
    [Get("user-42")]. *)
Theorem GetJoinKey_is_Get_of_joined m (parts : list string) :
  GetJoinKey m parts = Get m (String.concat "-" parts)
  ∧ GetJoinKey m ["user"; "42"] = Get m "user-42".
Proof.
  unfold GetJoinKey. by rewrite strings_Join_concat.
Qed.

(** *** Flush *)

Lemma Flush_loop_spec (shs : list (ShardMap V)) size :
  Flush_loop shs size =
  (size + sum_len shs, replicate (length shs) (mkShardMap ∅)).
Proof.
  revert size. induction shs as [|sh shs IH]; intros size; simpl.
  - f_equal. unfold sum_len. simpl. lia.
  - rewrite IH, sum_len_cons. f_equal. lia.
Qed.

Lemma Flush_spec m :
  Flush m =
  (Size m, {| shardCount := shardCount m;
              shards := replicate (length (shards m)) (mkShardMap ∅) |}).
Proof. unfold Flush. rewrite Flush_loop_spec. done. Qed.

(** C6: [Flush] returns the number of entries held across all shards before
    the call, and afterwards every shard holds an empty map, so that [Size]
    is 0; the shards themselves stay. *)
Theorem Flush_returns_size_and_empties m :
  fst (Flush m) = Size m
  ∧ Size (snd (Flush m)) = 0
  ∧ Forall (fun shard => items shard = ∅) (shards (snd (Flush m)))
  ∧ length (shards (snd (Flush m))) = length (shards m)
  ∧ shardCount (snd (Flush m)) = shardCount m.
Proof.
  rewrite Flush_spec. simpl.
  assert (Forall (fun shard : ShardMap V => items shard = ∅)
            (replicate (length (shards m)) (mkShardMap ∅))) as Hall.
  { apply Forall_replicate. done. }
  split_and!; [done| |done| |done].
  - by apply Size_zero_iff.
  - by rewrite length_replicate.
Qed.

(** *** Pop on an empty container *)

(** C5: on a container none of whose shards holds an entry, [Pop] panics
    with "syncmap: map is empty" whatever the random source and the map
    order would have been, and the container is as it was. *)
Theorem Pop_empty_panics draws order m :
  Forall (fun shard => items shard = ∅) (shards m) →
  Size m = 0 ∧ Pop draws order m = (Panicked map_is_empty, m).
Proof.
  intros Hempty. apply Size_zero_iff in Hempty.
  split; [done|]. unfold Pop. by rewrite decide_True.
Qed.

(** *** Keyed operations *)

Lemma Get_stored m key :
  wf m →
  Get m key = Returned (match stored m key with
                        | Some v => (v, true)
                        | None => (nil_value, false)
                        end).
Proof.
  intros Hwf. destruct (Get_wf m key Hwf) as (shard & Hsh & ->).
  unfold stored. rewrite Hsh. done.
Qed.

Lemma Has_stored m key :
  wf m → Has m key = Returned (bool_decide (is_Some (stored m key))).
Proof.
  intros Hwf. unfold Has. rewrite (Get_stored m key Hwf).
  by destruct (stored m key) as [v|].
Qed.

(** A write to the shard at [i] as seen from [key]. *)
Lemma stored_store_shard m i shard key :
  (i < length (shards m))%nat →
  stored (store_shard m i shard) key =
  if decide (home m key = i) then items shard !! key else stored m key.
Proof.
  intros Hi. unfold stored. rewrite home_store_shard. simpl.
  case_decide as Hhome.
  - subst i. by rewrite list_lookup_insert_eq.
  - by rewrite list_lookup_insert_ne.
Qed.

Lemma stored_Set m key value m' k :
  wf m → Set_ m key value = Returned m' →
  wf m' ∧ stored m' k = if decide (key = k) then Some value else stored m k.
Proof.
  intros Hwf HSet. destruct (Set_wf m key value Hwf) as (shard & Hsh & Heq).
  rewrite Heq in HSet. injection HSet as <-.
  split; [by apply wf_store_shard|].
  rewrite stored_store_shard by (by apply home_lt).
  destruct (decide (key = k)) as [->|Hk].
  - rewrite decide_True by done. simpl. by rewrite lookup_insert_eq.
  - case_decide as Hhome; [|done]. simpl.
    rewrite lookup_insert_ne by done. unfold stored. rewrite Hhome, Hsh. done.
Qed.

Lemma stored_Delete m key m' k :
  wf m → Delete m key = Returned m' →
  wf m' ∧ stored m' k = if decide (key = k) then None else stored m k.
Proof.
  intros Hwf HDel. destruct (Delete_wf m key Hwf) as (shard & Hsh & Heq).
  rewrite Heq in HDel. injection HDel as <-.
  split; [by apply wf_store_shard|].
  rewrite stored_store_shard by (by apply home_lt).
  destruct (decide (key = k)) as [->|Hk].
  - rewrite decide_True by done. simpl. by rewrite lookup_delete_eq.
  - case_decide as Hhome; [|done]. simpl.
    rewrite lookup_delete_ne by done. unfold stored. rewrite Hhome, Hsh. done.
Qed.

Lemma stored_Flush m k : stored (snd (Flush m)) k = None.
Proof.
  rewrite Flush_spec. unfold stored. simpl.
  destruct (replicate _ _ !! _) as [shard|] eqn:E; [|done].
  apply lookup_replicate in E as [-> _]. done.
Qed.

Lemma wf_Flush m : wf m → wf (snd (Flush m)).
Proof.
  intros [Hpos Hlen]. rewrite Flush_spec. split; simpl; [done|].
  by rewrite length_replicate.
Qed.

(** *** What a call of [Pop] does to the container *)

Lemma Pop_loop_cases draws order m n :
  (snd (Pop_loop draws order m n) = m
   ∧ popped_key (fst (Pop_loop draws order m n)) = None)
  ∨ ∃ i shard key value,
      shards m !! i = Some shard
      ∧ Pop_loop draws order m n =
        (Returned (key, value),
         store_shard m i (mkShardMap (delete key (items shard)))).
Proof.
  induction draws as [|idx draws IH]; simpl.
  - case_decide; by left.
  - case_decide; [by left|].
    destruct (slice_index (shards m) idx) as [shard|msg|] eqn:E;
      [|by left..].
    apply slice_index_lookup in E as [_ E].
    case_decide as Hlen.
    + right. exists (Z.to_nat idx), shard.
      destruct (order (Z.to_nat idx) (items shard)) as [|[key value] ?]; eauto.
    + exact IH.
Qed.

Lemma Pop_cases draws order m :
  (snd (Pop draws order m) = m ∧ popped_key (fst (Pop draws order m)) = None)
  ∨ ∃ i shard key value,
      shards m !! i = Some shard
      ∧ Pop draws order m =
        (Returned (key, value),
         store_shard m i (mkShardMap (delete key (items shard)))).
Proof.
  unfold Pop. case_decide; [by left|]. apply Pop_loop_cases.
Qed.

Lemma wf_Pop draws order m : wf m → wf (snd (Pop draws order m)).
Proof.
  intros Hwf.
  destruct (Pop_cases draws order m) as [[-> _]|(i & sh & key & v & _ & ->)];
    [done|]. by apply wf_store_shard.
Qed.

Lemma stored_Pop draws order m k :
  (popped_key (fst (Pop draws order m)) ≠ Some k →
   stored (snd (Pop draws order m)) k = stored m k)
  ∧ (stored m k = None → stored (snd (Pop draws order m)) k = None).
Proof.
  destruct (Pop_cases draws order m) as [[-> _]|(i & sh & key & v & Hsh & ->)];
    [done|]. simpl.
  rewrite stored_store_shard by (by eapply lookup_lt_Some).
  case_decide as Hhome; [|done]. simpl.
  assert (stored m k = items sh !! k) as ->.
  { unfold stored. rewrite Hhome, Hsh. done. }
  split.
  - intros Hne. rewrite lookup_delete_ne; [done|]. congruence.
  - intros Hnone. destruct (decide (key = k)) as [->|Hne].
    + apply lookup_delete_eq.
    + by rewrite lookup_delete_ne.
Qed.


(** *** Sequences of calls *)

Lemma wf_apply_op o m : wf m → wf (apply_op o m).
Proof.
  intros Hwf. destruct o as [key value|key| | | | | |draws order]; simpl;
    try done.
  - destruct (Set_wf m key value Hwf) as (shard & _ & ->).
    by apply wf_store_shard.
  - destruct (Delete_wf m key Hwf) as (shard & _ & ->).
    by apply wf_store_shard.
  - by apply wf_Flush.
  - by apply wf_Pop.
Qed.

Lemma wf_apply_ops ops m : wf m → wf (apply_ops ops m).
Proof.
  revert m. induction ops as [|o ops IH]; intros m Hwf; [done|].
  apply IH, wf_apply_op, Hwf.
Qed.

Lemma apply_ops_app ops1 ops2 m :
  apply_ops (ops1 ++ ops2) m = apply_ops ops2 (apply_ops ops1 m).
Proof. apply fold_left_app. Qed.

(** A call that does not end the binding of [k] leaves it as it is. *)
Lemma stored_apply_op_keep k o m :
  wf m → ends_binding k o m = false → stored (apply_op o m) k = stored m k.
Proof.
  intros Hwf Hends.
  destruct o as [key value|key| | | | | |draws order]; simpl in *; try done.
  - apply bool_decide_eq_false in Hends.
    destruct (Set_wf m key value Hwf) as (shard & _ & Heq). rewrite Heq.
    destruct (stored_Set m key value _ k Hwf Heq) as [_ ->].
    by rewrite decide_False.
  - apply bool_decide_eq_false in Hends.
    destruct (Delete_wf m key Hwf) as (shard & _ & Heq). rewrite Heq.
    destruct (stored_Delete m key _ k Hwf Heq) as [_ ->].
    by rewrite decide_False.
  - apply bool_decide_eq_false in Hends. by apply stored_Pop.
Qed.

(** No call but [Set(k, _)] gives [k] an entry. *)
Lemma stored_apply_op_absent k o m :
  wf m → not_set k o → stored m k = None → stored (apply_op o m) k = None.
Proof.
  intros Hwf Hns Hnone.
  destruct o as [key value|key| | | | | |draws order]; simpl in *; try done.
  - destruct (Set_wf m key value Hwf) as (shard & _ & Heq). rewrite Heq.
    destruct (stored_Set m key value _ k Hwf Heq) as [_ ->].
    by rewrite decide_False.
  - destruct (Delete_wf m key Hwf) as (shard & _ & Heq). rewrite Heq.
    destruct (stored_Delete m key _ k Hwf Heq) as [_ ->].
    by case_decide.
  - apply stored_Flush.
  - by apply stored_Pop.
Qed.

Lemma stored_apply_ops_absent k ops m :
  wf m → Forall (not_set k) ops → stored m k = None →
  stored (apply_ops ops m) k = None.
Proof.
  revert m. induction ops as [|o ops IH]; intros m Hwf Hall Hnone; [done|].
  apply Forall_cons in Hall as [Ho Hall].
  apply IH; [by apply wf_apply_op|done|by apply stored_apply_op_absent].
Qed.

Lemma stored_apply_Delete k m : wf m → stored (apply_op (OpDelete k) m) k = None.
Proof.
  intros Hwf. simpl.
  destruct (Delete_wf m k Hwf) as (shard & _ & Heq). rewrite Heq.
  destruct (stored_Delete m k _ k Hwf Heq) as [_ ->]. by rewrite decide_True.
Qed.

(** *** The constructor *)

Lemma NewWithShard_spec n m0 :
  NewWithShard n = Returned m0 →
  wf m0
  ∧ shardCount m0 = (if decide (n = 0) then defaultShardCount else n)
  ∧ Forall (fun shard => items shard = ∅) (shards m0).
Proof.
  unfold NewWithShard. intros Hnew.
  set (c := if decide (n = 0) then defaultShardCount else n) in *.
  assert (c ≠ 0) as Hc0.
  { unfold c, defaultShardCount. destruct (decide (n = 0)); lia. }
  case_decide as Hneg; [done|]. injection Hnew as <-.
  split_and!; simpl.
  - split; simpl; [lia|]. rewrite length_replicate. lia.
  - done.
  - by apply Forall_replicate.
Qed.


Lemma stored_empty m k :
  Forall (fun shard => items shard = ∅) (shards m) → stored m k = None.
Proof.
  intros Hall. unfold stored.
  destruct (shards m !! home m k) as [shard|] eqn:E; [|done]. simpl.
  rewrite Forall_lookup in Hall. by rewrite (Hall _ _ E).
Qed.

(** *** Get, Set and Delete *)

(** C1, as the code has it: on a constructed container [Set(k, v)] returns,
    and from then on [Get(k)] returns [(v, true)] after every sequence of calls
    none of which is [Set(k, _)], [Delete(k)], [Flush()] or a [Pop()] that
    returns [k]; in particular no [Set] or [Delete] of another key, and no
    [Pop] of another key, changes what [Get(k)] returns. *)
Theorem Set_then_Get_until_removed m k (v : V) :
  wf m →
  ∃ m', Set_ m k v = Returned m'
        ∧ Get m' k = Returned (v, true)
        ∧ ∀ ops, undisturbed k ops m' = true →
                 Get (apply_ops ops m') k = Returned (v, true).
Proof.
  intros Hwf. destruct (Set_wf m k v Hwf) as (shard & _ & Heq).
  eexists. split; [exact Heq|].
  destruct (stored_Set m k v _ k Hwf Heq) as [Hwf' Hst].
  rewrite decide_True in Hst by done.
  set (m' := store_shard _ _ _) in *. clearbody m'. clear Heq shard Hwf m.
  assert (∀ ops, undisturbed k ops m' = true →
                 wf (apply_ops ops m') ∧ stored (apply_ops ops m') k = Some v)
    as Hkeep.
  { intros ops. revert m' Hwf' Hst.
    induction ops as [|o ops IH]; intros m' Hwf' Hst Hun; [done|].
    simpl in Hun. apply andb_prop in Hun as [Ho Hun].
    apply negb_true_iff in Ho.
    apply IH; [by apply wf_apply_op| |done].
    by rewrite stored_apply_op_keep. }
  split.
  - rewrite Get_stored, Hst by done. done.
  - intros ops Hun. destruct (Hkeep ops Hun) as [Hwf'' Hst''].
    rewrite Get_stored, Hst'' by done. done.
Qed.

(** C8: on a container made by the constructor, after any sequence of calls
    in which [k] was never set, or in which no [Set(k, _)] follows some
    [Delete(k)], [Get(k)] returns with the zero value and [found = false]
    (it does not panic), and so does [Has(k)]. *)
Theorem Get_absent_key n m0 ops k :
  NewWithShard n = Returned m0 →
  (Forall (not_set k) ops
   ∨ ∃ pre post, ops = pre ++ OpDelete k :: post ∧ Forall (not_set k) post) →
  Get (apply_ops ops m0) k = Returned (nil_value, false)
  ∧ Has (apply_ops ops m0) k = Returned false.
Proof.
  intros Hnew Hops.
  destruct (NewWithShard_spec n m0 Hnew) as (Hwf & _ & Hempty).
  assert (wf (apply_ops ops m0)) as Hwf' by (by apply wf_apply_ops).
  assert (stored (apply_ops ops m0) k = None) as Hst.
  { destruct Hops as [Hnever|(pre & post & -> & Hpost)].
    - apply stored_apply_ops_absent; [done..|]. by apply stored_empty.
    - rewrite apply_ops_app. change (OpDelete k :: post) with ([OpDelete k] ++ post).
      rewrite apply_ops_app.
      apply stored_apply_ops_absent; [|done|].
      + apply wf_apply_ops. by apply wf_apply_ops.
      + apply stored_apply_Delete. by apply wf_apply_ops. }
  rewrite Has_stored, Get_stored, Hst by done. done.
Qed.

(** C10: a stored nil is an entry. After [Set(k, nil)], [Get(k)] returns
    [(nil, true)] and [Has(k)] returns [true], while a key with no entry
    reads as [(nil, false)] and [Has] says [false]: the two differ in the
    flag only. *)
Theorem Set_nil_is_present m k :
  wf m →
  ∃ m', Set_ m k nil_value = Returned m'
        ∧ Get m' k = Returned (nil_value, true)
        ∧ Has m' k = Returned true
        ∧ ∀ k', stored m' k' = None →
                Get m' k' = Returned (nil_value, false)
                ∧ Has m' k' = Returned false
                ∧ Get m' k' ≠ Get m' k.
Proof.
  intros Hwf. destruct (Set_wf m k nil_value Hwf) as (shard & _ & Heq).
  eexists. split; [exact Heq|].
  destruct (stored_Set m k nil_value _ k Hwf Heq) as [Hwf' Hst].
  rewrite decide_True in Hst by done.
  rewrite !Get_stored, !Has_stored, Hst by done.
  split_and!; [done..|].
  intros k' Hnone. rewrite !Get_stored, !Has_stored, Hnone by done. done.
Qed.

(** *** Traversals *)

Lemma visit_until_logging {A S} (iter : A → S → S * bool) pre x post s s' log :
  visits_through iter pre s = Some s' →
  (iter x s').2 = false →
  visit_until (logging iter) (pre ++ x :: post) (s, log) =
  ((iter x s').1, log ++ pre ++ [x]).
Proof.
  revert s log. induction pre as [|a pre IH]; intros s log Hpre Hx; simpl in *.
  - injection Hpre as ->. destruct (iter x s') as [s1 c]. simpl in *. by subst c.
  - destruct (iter a s) as [s1 [|]]; [|done].
    rewrite (IH _ _ Hpre Hx). by rewrite <-app_assoc.
Qed.

Lemma visit_until_logging_all {A S} (iter : A → S → S * bool) l s s' log :
  visits_through iter l s = Some s' →
  visit_until (logging iter) l (s, log) = (s', log ++ l).
Proof.
  revert s log. induction l as [|a l IH]; intros s log Hl; simpl in *.
  - injection Hl as ->. by rewrite app_nil_r.
  - destruct (iter a s) as [s1 [|]]; [|done].
    rewrite (IH _ _ Hl). by rewrite <-app_assoc.
Qed.

Lemma visit_until_always {A S} (iter : A → S → S) (l : list A) s :
  visit_until (fun a s => (iter a s, true)) l s = fold_left (fun s a => iter a s) l s.
Proof. revert s. induction l as [|a l IH]; intros s; simpl; [done|]. apply IH. Qed.

(** The inner loop is the flat walk over the entries of its shard, and tells
    whether the walk stopped there. *)
Lemma range_items_flat {S} (iter : Item V → S → S * bool)
    (es rest : list (string * V)) s :
  visit_until iter (item_of <$> (es ++ rest)) s =
  let '(s', stop) := range_items_with_break iter es s in
  if stop then s' else visit_until iter (item_of <$> rest) s'.
Proof.
  revert s. induction es as [|[key value] es IH]; intros s; simpl; [done|].
  unfold item_of at 1. simpl.
  destruct (iter (mkItem key value) s) as [s1 [|]]; [|done]. apply IH.
Qed.

Lemma range_keys_flat {S} (iter : string → S → S * bool)
    (es rest : list (string * V)) s :
  visit_until iter (fst <$> (es ++ rest)) s =
  let '(s', stop) := range_keys_with_break iter es s in
  if stop then s' else visit_until iter (fst <$> rest) s'.
Proof.
  revert s. induction es as [|[key value] es IH]; intros s; simpl; [done|].
  destruct (iter key s) as [s1 [|]]; [|done]. apply IH.
Qed.

Lemma EachItemWithBreak_flat {S} order m (iter : Item V → S → S * bool) s :
  EachItemWithBreak order m iter s =
  visit_until iter (item_of <$> traversal order m) s.
Proof.
  unfold EachItemWithBreak, traversal. generalize 0%nat as i.
  revert s. induction (shards m) as [|shard shs IH]; intros s i; simpl; [done|].
  rewrite range_items_flat.
  destruct (range_items_with_break iter _ s) as [s1 [|]]; [done|]. apply IH.
Qed.

Lemma EachKeyWithBreak_flat {S} order m (iter : string → S → S * bool) s :
  EachKeyWithBreak order m iter s =
  visit_until iter (fst <$> traversal order m) s.
Proof.
  unfold EachKeyWithBreak, traversal. generalize 0%nat as i.
  revert s. induction (shards m) as [|shard shs IH]; intros s i; simpl; [done|].
  rewrite range_keys_flat.
  destruct (range_keys_with_break iter _ s) as [s1 [|]]; [done|]. apply IH.
Qed.

(** C7: let the entries, in the order the traversal meets them (shard after
    shard, each shard in the order of its [range]), be [pre], then [x], then
    [post], the visitor saying "go on" all along [pre] and "stop" at [x].
    Then the visitor is called on [pre] and on [x] and on nothing else:
    neither on what remains of the shard of [x] nor on any later shard, all of
    which is [post]. This holds for [EachItemWithBreak] and for
    [EachKeyWithBreak]. *)
Theorem Each_with_break_stops {S} order m (pre post : list (string * V)) x
    (iter : Item V → S → S * bool) (iterk : string → S → S * bool) s s' sk' :
  traversal order m = pre ++ x :: post →
  visits_through iter (item_of <$> pre) s = Some s' →
  (iter (item_of x) s').2 = false →
  visits_through iterk (fst <$> pre) s = Some sk' →
  (iterk x.1 sk').2 = false →
  EachItemWithBreak order m (logging iter) (s, []) =
    ((iter (item_of x) s').1, item_of <$> (pre ++ [x]))
  ∧ EachKeyWithBreak order m (logging iterk) (s, []) =
    ((iterk x.1 sk').1, fst <$> (pre ++ [x])).
Proof.
  intros Htr Hpre Hx Hprek Hxk.
  rewrite EachItemWithBreak_flat, EachKeyWithBreak_flat, Htr.
  rewrite !fmap_app, !fmap_cons. split.
  - by rewrite (visit_until_logging iter _ _ _ s s' []).
  - by rewrite (visit_until_logging iterk _ _ _ s sk' []).
Qed.

(** *** Full traversals *)

Lemma traversal_from_perm order i (shs : list (ShardMap V)) :
  range_ok order → traversal_from order i shs ≡ₚ entries_of shs.
Proof.
  intros Hok. revert i. induction shs as [|shard shs IH]; intros i; [done|].
  unfold entries_of. simpl. rewrite (Hok i), (IH (S i)). done.
Qed.

Lemma elem_of_entries_of (shs : list (ShardMap V)) k (v : V) :
  (k, v) ∈ entries_of shs ↔
  ∃ i shard, shs !! i = Some shard ∧ items shard !! k = Some v.
Proof.
  induction shs as [|shard shs IH].
  - split; [by intros ?%elem_of_nil|]. by intros (i & sh & ? & _).
  - unfold entries_of. simpl. fold (entries_of shs).
    rewrite elem_of_app, IH, elem_of_map_to_list. split.
    + intros [Hk|(i & sh & Hi & Hk)].
      * by exists 0%nat, shard.
      * by exists (S i), sh.
    + intros ([|i] & sh & Hi & Hk); simplify_eq/=; [by left|].
      right. by exists i, sh.
Qed.

(** Keys kept apart by a position function, here [home], do not repeat. *)
Lemma NoDup_entries_of_keys (h : string → nat) i (shs : list (ShardMap V)) :
  (∀ j shard k, shs !! j = Some shard → is_Some (items shard !! k) →
                h k = (i + j)%nat) →
  NoDup (entries_of shs).*1.
Proof.
  revert i. induction shs as [|shard shs IH]; intros i Hh.
  - constructor.
  - unfold entries_of. simpl. fold (entries_of shs). rewrite fmap_app.
    apply NoDup_app. split_and!.
    + apply NoDup_fst_map_to_list.
    + intros k [[k' v] [-> Hin]]%list_elem_of_fmap
        [[k'' v'] [Heq Hin']]%list_elem_of_fmap. simpl in *. subst k''.
      apply elem_of_map_to_list in Hin.
      apply elem_of_entries_of in Hin' as (j & sh & Hj & Hk).
      pose proof (Hh 0%nat shard k' eq_refl (mk_is_Some _ _ Hin)).
      pose proof (Hh (S j) sh k' Hj (mk_is_Some _ _ Hk)). lia.
    + apply (IH (S i)). intros j sh k Hj Hk.
      rewrite (Hh (S j) sh k Hj Hk). lia.
Qed.

Lemma homed_entries m k v :
  wf m → homed m → ((k, v) ∈ entries m ↔ stored m k = Some v).
Proof.
  intros Hwf Hhomed. unfold entries. rewrite elem_of_entries_of. split.
  - intros (i & shard & Hi & Hk).
    pose proof (Hhomed i shard k Hi (mk_is_Some _ _ Hk)) as Hhome.
    unfold stored. rewrite Hhome, Hi. done.
  - unfold stored. intros Hst.
    destruct (shards m !! home m k) as [shard|] eqn:E; [|done]. eauto.
Qed.

(** The calls keep every key in its shard. *)
Lemma homed_store_shard m i shard (items' : gmap string V) :
  shards m !! i = Some shard →
  (∀ k, is_Some (items' !! k) → is_Some (items shard !! k) ∨ home m k = i) →
  homed m → homed (store_shard m i (mkShardMap items')).
Proof.
  intros Hi Hsub Hhomed j sh k Hj Hk. rewrite home_store_shard.
  simpl in Hj. destruct (decide (i = j)) as [<-|Hne].
  - rewrite list_lookup_insert_eq in Hj by (by eapply lookup_lt_Some).
    injection Hj as <-. simpl in Hk.
    destruct (Hsub k Hk) as [Hold|Hhome]; [|done]. by eapply Hhomed.
  - rewrite list_lookup_insert_ne in Hj by done. by eapply Hhomed.
Qed.

Lemma homed_apply_op o m : wf m → homed m → homed (apply_op o m).
Proof.
  intros Hwf Hhomed.
  destruct o as [key value|key| | | | | |draws order]; simpl; try done.
  - destruct (Set_wf m key value Hwf) as (shard & Hsh & ->).
    apply (homed_store_shard _ _ shard); [done| |done].
    intros k Hk. destruct (decide (key = k)) as [->|Hne]; [by right|].
    left. by rewrite lookup_insert_ne in Hk.
  - destruct (Delete_wf m key Hwf) as (shard & Hsh & ->).
    apply (homed_store_shard _ _ shard); [done| |done].
    intros k Hk. left. destruct (decide (key = k)) as [->|Hne].
    + rewrite lookup_delete_eq in Hk. by destruct Hk.
    + by rewrite lookup_delete_ne in Hk.
  - rewrite Flush_spec. intros i sh k Hi Hk. simpl in Hi.
    apply lookup_replicate in Hi as [-> _]. simpl in Hk.
    rewrite lookup_empty in Hk. by destruct Hk.
  - destruct (Pop_cases draws order m) as [[-> _]|(i & sh & key & v & Hsh & ->)];
      [done|]. simpl.
    apply (homed_store_shard _ _ sh); [done| |done].
    intros k Hk. left. destruct (decide (key = k)) as [->|Hne].
    + rewrite lookup_delete_eq in Hk. by destruct Hk.
    + by rewrite lookup_delete_ne in Hk.
Qed.

Lemma homed_apply_ops ops m : wf m → homed m → homed (apply_ops ops m).
Proof.
  revert m. induction ops as [|o ops IH]; intros m Hwf Hhomed; [done|].
  apply IH; [by apply wf_apply_op|by apply homed_apply_op].
Qed.

Lemma homed_NewWithShard n m0 : NewWithShard n = Returned m0 → homed m0.
Proof.
  intros (_ & _ & Hempty)%NewWithShard_spec i shard k Hi Hk.
  rewrite Forall_lookup in Hempty. rewrite (Hempty _ _ Hi) in Hk.
  rewrite lookup_empty in Hk. by destruct Hk.
Qed.

Global Instance item_of_inj : Inj (=) (=) (@item_of V).
Proof. intros [k v] [k' v'] [= -> ->]. done. Qed.

Lemma fold_left_log {A} (l log : list A) :
  fold_left (fun log a => log ++ [a]) l log = log ++ l.
Proof.
  revert log. induction l as [|a l IH]; intros log; simpl.
  - by rewrite app_nil_r.
  - by rewrite IH, <-app_assoc.
Qed.

(** C3: with no mutation under way, [EachItem] calls its visitor along the
    list [visited]: the entries of the shards, shard after shard, each shard
    in the order of its [range]. That list is a rearrangement of the entries
    the shards hold, so every entry of every shard is visited once, wherever
    it is stored. On a container made by the constructor and brought to its
    state by calls of its operations, no key is visited twice and the visited
    items are those pairs [(k, v)] for which [Get(k)] returns [(v, true)]. *)
Theorem EachItem_visits_each_entry_once order m :
  range_ok order →
  let visited := item_of <$> traversal order m in
  (∀ S (iter : Item V → S → S) (s : S),
     EachItem order m iter s = fold_left (fun s item => iter item s) visited s)
  ∧ EachItem order m (fun item log => log ++ [item]) [] = visited
  ∧ traversal order m ≡ₚ entries m
  ∧ ∀ n m0 ops,
      NewWithShard n = Returned m0 → m = apply_ops ops m0 →
      NoDup (Key <$> visited)
      ∧ ∀ k v, mkItem k v ∈ visited ↔ Get m k = Returned (v, true).
Proof.
  intros Hok visited.
  assert (∀ S (iter : Item V → S → S) (s : S),
            EachItem order m iter s
            = fold_left (fun s item => iter item s) visited s) as Hfold.
  { intros S iter s. unfold EachItem.
    by rewrite EachItemWithBreak_flat, visit_until_always. }
  assert (traversal order m ≡ₚ entries m) as Hperm
    by (by apply traversal_from_perm).
  split_and!; [done| |done|].
  - by rewrite Hfold, fold_left_log.
  - intros n m0 ops Hnew ->.
    destruct (NewWithShard_spec n m0 Hnew) as (Hwf0 & _ & _).
    pose proof (wf_apply_ops ops m0 Hwf0) as Hwf.
    pose proof (homed_apply_ops ops m0 Hwf0 (homed_NewWithShard n m0 Hnew))
      as Hhomed.
    set (m := apply_ops ops m0) in *. split.
    + unfold visited. rewrite <-list_fmap_compose.
      change (Key ∘ item_of) with (@fst string V).
      rewrite Hperm. apply (NoDup_entries_of_keys (home m) 0%nat).
      intros j shard k Hj Hk. by apply (Hhomed j shard k).
    + intros k v. unfold visited.
      change (mkItem k v) with (item_of (k, v)).
      rewrite list_elem_of_fmap_inj by apply _.
      rewrite Hperm, homed_entries, Get_stored by done.
      destruct (stored m k) as [v'|]; split; intros H; by simplify_eq.
Qed.

(** *** Pop on a container with entries *)

(** What [range] yields first is an entry of the map. *)
Lemma range_first order i (items : gmap string V) :
  range_ok order → len items > 0 →
  ∃ key value rest,
    order i items = (key, value) :: rest ∧ items !! key = Some value.
Proof.
  intros Hok Hlen.
  destruct (order i items) as [|[key value] rest] eqn:E.
  - specialize (Hok i items). rewrite E in Hok.
    apply Permutation_nil_l in Hok. symmetry in Hok.
    apply map_to_list_empty_iff, len_zero_iff in Hok. lia.
  - exists key, value, rest. split; [done|].
    apply elem_of_map_to_list. rewrite <-(Hok i items), E. left.
Qed.

Lemma len_delete (items : gmap string V) key :
  is_Some (items !! key) → len (delete key items) = len items - 1.
Proof.
  intros Hk. unfold len. rewrite map_size_delete_Some by done.
  assert (size items ≠ 0%nat); [|lia].
  apply map_size_non_empty_iff. intros ->.
  rewrite lookup_empty in Hk. by destruct Hk.
Qed.

Lemma draw_hits_spec m d :
  draw_hits m d = true ↔
  ∃ shard, slice_index (shards m) d = Returned shard ∧ len (items shard) > 0.
Proof.
  unfold draw_hits.
  destruct (slice_index (shards m) d) as [shard|msg|]; split;
    try done; try (by intros (? & ? & _)).
  - intros Hb%bool_decide_eq_true. eauto.
  - intros (? & [= <-] & Hlen). by apply bool_decide_eq_true.
Qed.

(** The loop returns at the first draw that finds a shard with entries. *)
Lemma Pop_loop_hit draws order m :
  wf m → range_ok order →
  Forall (fun d => 0 ≤ d < shardCount m) draws →
  existsb (draw_hits m) draws = true →
  ∃ key value i shard,
    shards m !! i = Some shard
    ∧ items shard !! key = Some value
    ∧ Pop_loop draws order m (shardCount m) =
      (Returned (key, value),
       store_shard m i (mkShardMap (delete key (items shard)))).
Proof.
  intros [Hpos Hlen] Hok.
  induction draws as [|idx draws IH]; intros Hvalid Hhit; [done|].
  apply Forall_cons in Hvalid as [Hidx Hvalid]. simpl in Hhit.
  cbn [Pop_loop]. rewrite decide_False by lia.
  destruct (lookup_lt_is_Some_2 (shards m) (Z.to_nat idx) ltac:(lia))
    as [shard Hsh].
  assert (slice_index (shards m) idx = Returned shard) as Hidx'.
  { apply slice_index_lookup. split; [lia|done]. }
  rewrite Hidx'. case_decide as Hne.
  - destruct (range_first order (Z.to_nat idx) (items shard) Hok Hne)
      as (key & value & rest & -> & Hk).
    by exists key, value, (Z.to_nat idx), shard.
  - apply IH; [done|].
    apply orb_prop in Hhit as [Hhit|Hhit]; [|done].
    apply draw_hits_spec in Hhit as (sh & Heq & Hgt). congruence.
Qed.

(** A container with entries has a shard to hit. *)
Lemma nonempty_has_hit m :
  wf m → Size m ≠ 0 → ∃ d, 0 ≤ d < shardCount m ∧ draw_hits m d = true.
Proof.
  intros [Hpos Hlen] Hsize.
  assert (¬ Forall (fun shard => items shard = ∅) (shards m)) as Hne
    by (by rewrite <-Size_zero_iff).
  apply not_Forall_Exists in Hne; [|intros sh; apply _].
  apply Exists_exists in Hne as (shard & Hin & Hshard).
  apply list_elem_of_lookup in Hin as [i Hi].
  pose proof (lookup_lt_Some _ _ _ Hi).
  exists (Z.of_nat i). split; [lia|].
  apply draw_hits_spec. exists shard. split.
  - apply slice_index_lookup. rewrite Nat2Z.id. split; [lia|done].
  - simpl in Hshard. rewrite <-len_zero_iff in Hshard.
    pose proof (len_nonneg (items shard)). lia.
Qed.

(** Draws that find only empty shards leave the loop looking, and the
    container as it was. *)
Lemma Pop_loop_miss draws order m :
  wf m →
  Forall (fun d => 0 ≤ d < shardCount m) draws →
  existsb (draw_hits m) draws = false →
  Pop_loop draws order m (shardCount m) = (Spinning, m).
Proof.
  intros [Hpos Hlen].
  induction draws as [|idx draws IH]; intros Hvalid Hmiss;
    cbn [Pop_loop]; rewrite decide_False by lia; [done|].
  apply Forall_cons in Hvalid as [Hidx Hvalid]. simpl in Hmiss.
  apply orb_false_elim in Hmiss as [Hmiss Hrest].
  destruct (lookup_lt_is_Some_2 (shards m) (Z.to_nat idx) ltac:(lia))
    as [shard Hsh].
  assert (slice_index (shards m) idx = Returned shard) as Hidx'.
  { apply slice_index_lookup. split; [lia|done]. }
  rewrite Hidx'. unfold draw_hits in Hmiss. rewrite Hidx' in Hmiss.
  apply bool_decide_eq_false in Hmiss. rewrite decide_False by done.
  by apply IH.
Qed.

(** C4: a constructed container with entries has a shard a draw can hit, and
    whenever the draws of [rand.Intn] reach such a shard, [Pop] returns a key
    and value that one shard held before the call, takes that one entry out
    of that shard and touches nothing else, so that [Size] is one less. When
    every key sits in its own shard, [Get] of the key returned [(value, true)]
    before the call and returns [(nil, false)] after it. *)
Theorem Pop_removes_one order m :
  wf m → Size m ≠ 0 → range_ok order →
  (∃ d, 0 ≤ d < shardCount m ∧ draw_hits m d = true)
  ∧ ∀ draws,
      Forall (fun d => 0 ≤ d < shardCount m) draws →
      existsb (draw_hits m) draws = true →
      ∃ key value i shard,
        Pop draws order m =
          (Returned (key, value),
           store_shard m i (mkShardMap (delete key (items shard))))
        ∧ shards m !! i = Some shard
        ∧ items shard !! key = Some value
        ∧ Size (snd (Pop draws order m)) = Size m - 1
        ∧ (homed m →
           Get m key = Returned (value, true)
           ∧ Get (snd (Pop draws order m)) key = Returned (nil_value, false)).
Proof.
  intros Hwf Hsize Hok. split; [by apply nonempty_has_hit|].
  intros draws Hvalid Hhit.
  destruct (Pop_loop_hit draws order m Hwf Hok Hvalid Hhit)
    as (key & value & i & shard & Hsh & Hk & Hpop).
  exists key, value, i, shard.
  assert (Pop draws order m =
          (Returned (key, value),
           store_shard m i (mkShardMap (delete key (items shard))))) as HPop.
  { unfold Pop. by rewrite decide_False. }
  rewrite HPop. simpl. split_and!; [done..| |].
  - rewrite (Size_store_shard m i shard) by done. simpl.
    rewrite len_delete by done. lia.
  - intros Hhomed.
    pose proof (Hhomed i shard key Hsh (mk_is_Some _ _ Hk)) as Hhome.
    rewrite !Get_stored by (by try apply wf_store_shard).
    rewrite stored_store_shard by (by eapply lookup_lt_Some).
    rewrite decide_True by done. simpl. rewrite lookup_delete_eq.
    unfold stored. rewrite Hhome, Hsh. simpl. by rewrite Hk.
Qed.

End properties.

(** ** The properties at work on the examples *)

Lemma wf_example_empty : wf example_empty.
Proof. split; reflexivity. Defined.

Lemma wf_example_abc : wf example_abc.
Proof. split; reflexivity. Defined.

Lemma range_ok_order_listed {V} : range_ok (@order_listed V).
Proof. intros i items. reflexivity. Defined.

Lemma range_ok_order_reversed {V} : range_ok (@order_reversed V).
Proof. intros i items. apply reverse_Permutation. Qed.

(** The scenario of the specification: four shards, three keys. *)
Example four_shards_three_keys :
  NewWithShard 4 = Returned example_empty
  ∧ Size example_abc = 3
  ∧ Get example_abc "b" = Returned (GoInt 2, true)
  ∧ (let m := apply_op (OpDelete "b") example_abc in
     Get m "b" = Returned (GoNil, false)
     ∧ Size m = 2
     ∧ fst (Flush m) = 2
     ∧ Size (snd (Flush m)) = 0).
Proof. repeat split; reflexivity. Qed.

Example New_has_default_shards :
  ∃ m : SyncMap go_value,
    New = Returned m ∧ shardCount m = 128 ∧ length (shards m) = 128%nat.
Proof. eexists. repeat split; reflexivity. Qed.

(** The order of [range] decides which entry [Pop] takes and in which order a
    traversal visits, not which entries there are. *)
Example traversal_orders :
  traversal order_listed example_abc
    = [("c"%string, GoInt 3); ("b"%string, GoInt 2); ("a"%string, GoInt 1)]
  ∧ traversal order_reversed (apply_op (OpSet "e" (GoInt 5)) example_abc)
    ≡ₚ traversal order_listed (apply_op (OpSet "e" (GoInt 5)) example_abc)
  ∧ fst (Pop [3; 1] order_listed example_abc) = Returned ("b"%string, GoInt 2).
Proof.
  split; [reflexivity|]. split; [|reflexivity].
  unfold traversal.
  rewrite (traversal_from_perm order_reversed) by apply range_ok_order_reversed.
  by rewrite (traversal_from_perm order_listed) by apply range_ok_order_listed.
Qed.

Lemma router_index_pow2_witness :
  0 ≤ 2
  ∧ shard_index (2 ^ 2) "a"
    = Z.land (fnv1_style_hash (key_bytes "a")) (2 ^ 2 - 1)
  ∧ 0 ≤ shard_index (2 ^ 2) "a" < 2 ^ 2.
Proof.
  assert (0 ≤ 2) as H by lia. split; [exact H|].
  destruct (router_index_pow2 (V := go_value) "a" 2 H) as (H1 & H2 & _).
  exact (conj H1 H2).
Defined.

Lemma Set_then_Get_until_removed_witness :
  wf example_empty
  ∧ ∃ m', Set_ example_empty "a" (GoInt 1) = Returned m'
          ∧ Get m' "a" = Returned (GoInt 1, true)
          ∧ ∀ ops, undisturbed "a" ops m' = true →
                   Get (apply_ops ops m') "a" = Returned (GoInt 1, true).
Proof.
  split; [exact wf_example_empty|].
  exact (Set_then_Get_until_removed example_empty "a" (GoInt 1) wf_example_empty).
Defined.

(** [Flush] ends a binding too: C1 as stated does not hold. *)
Lemma Set_then_Flush_forgets :
  let m := example_empty in
  let ops := [OpFlush] in
  wf m
  ∧ Forall (not_set_or_delete "a") ops
  ∧ ∃ m', Set_ m "a" (GoInt 1) = Returned m'
          ∧ Get (apply_ops ops m') "a" = Returned (GoNil, false)
          ∧ Get (apply_ops ops m') "a" ≠ Returned (GoInt 1, true).
Proof.
  split; [exact wf_example_empty|]. split; [by repeat constructor|].
  eexists. split; [reflexivity|]. split; [reflexivity|]. discriminate.
Qed.

(** So does a [Pop] that happens to take the key. *)
Example Set_then_Pop_forgets :
  let ops := [OpPop [2] order_listed] in
  Forall (not_set_or_delete "a") ops
  ∧ ∃ m', Set_ example_empty "a" (GoInt 1) = Returned m'
          ∧ Get (apply_ops ops m') "a" = Returned (GoNil, false).
Proof.
  split; [by repeat constructor|].
  eexists. split; reflexivity.
Qed.

Lemma EachItem_visits_each_entry_once_witness :
  range_ok (@order_listed go_value)
  ∧ EachItem order_listed example_abc (fun item log => log ++ [item]) []
    = item_of <$> traversal order_listed example_abc
  ∧ traversal order_listed example_abc ≡ₚ entries example_abc.
Proof.
  split; [exact range_ok_order_listed|].
  destruct (EachItem_visits_each_entry_once order_listed example_abc
              range_ok_order_listed) as (_ & H1 & H2 & _).
  exact (conj H1 H2).
Defined.

Lemma Pop_removes_one_witness :
  wf example_abc ∧ Size example_abc ≠ 0 ∧ range_ok (@order_listed go_value)
  ∧ ∃ key value i shard,
      Pop [3; 1] order_listed example_abc =
        (Returned (key, value),
         store_shard example_abc i (mkShardMap (delete key (items shard))))
      ∧ shards example_abc !! i = Some shard
      ∧ items shard !! key = Some value
      ∧ Size (snd (Pop [3; 1] order_listed example_abc)) = Size example_abc - 1.
Proof.
  assert (Size example_abc ≠ 0) as Hsize by (vm_compute; discriminate).
  assert (Forall (fun d => 0 ≤ d < shardCount example_abc) [3; 1]) as Hvalid
    by (repeat constructor; vm_compute; discriminate).
  assert (existsb (draw_hits example_abc) [3; 1] = true) as Hhit
    by reflexivity.
  split; [exact wf_example_abc|]. split; [exact Hsize|].
  split; [exact range_ok_order_listed|].
  destruct (Pop_removes_one order_listed example_abc wf_example_abc Hsize
              range_ok_order_listed) as [_ H].
  destruct (H [3; 1] Hvalid Hhit)
    as (key & value & i & shard & H1 & H2 & H3 & H4 & _).
  exists key, value, i, shard. exact (conj H1 (conj H2 (conj H3 H4))).
Defined.

Lemma Pop_empty_panics_witness :
  Forall (fun shard => items shard = ∅) (shards example_empty)
  ∧ Size example_empty = 0
  ∧ Pop [0; 1] order_listed example_empty
    = (Panicked map_is_empty, example_empty).
Proof.
  assert (Forall (fun shard : ShardMap go_value => items shard = ∅)
            (shards example_empty)) as H by (repeat constructor).
  split; [exact H|].
  exact (Pop_empty_panics [0; 1] order_listed example_empty H).
Defined.

Lemma Each_with_break_stops_witness :
  let pre := [("c"%string, GoInt 3)] in
  let x := ("b"%string, GoInt 2) in
  let post := [("a"%string, GoInt 1)] in
  traversal order_listed example_abc = pre ++ x :: post
  ∧ visits_through stop_at_b_item (item_of <$> pre) 0%nat = Some 1%nat
  ∧ (stop_at_b_item (item_of x) 1%nat).2 = false
  ∧ visits_through stop_at_b_key (fst <$> pre) 0%nat = Some 1%nat
  ∧ (stop_at_b_key x.1 1%nat).2 = false
  ∧ EachItemWithBreak order_listed example_abc (logging stop_at_b_item)
      (0%nat, [])
    = (2%nat, [mkItem "c" (GoInt 3); mkItem "b" (GoInt 2)])
  ∧ EachKeyWithBreak order_listed example_abc (logging stop_at_b_key)
      (0%nat, [])
    = (2%nat, ["c"; "b"]).
Proof.
  intros pre x post.
  assert (traversal order_listed example_abc = pre ++ x :: post) as H1
    by reflexivity.
  assert (visits_through stop_at_b_item (item_of <$> pre) 0%nat = Some 1%nat)
    as H2 by reflexivity.
  assert ((stop_at_b_item (item_of x) 1%nat).2 = false) as H3 by reflexivity.
  assert (visits_through stop_at_b_key (fst <$> pre) 0%nat = Some 1%nat)
    as H4 by reflexivity.
  assert ((stop_at_b_key x.1 1%nat).2 = false) as H5 by reflexivity.
  split_and!; [exact H1|exact H2|exact H3|exact H4|exact H5|..];
    apply (Each_with_break_stops order_listed example_abc pre post x
             stop_at_b_item stop_at_b_key 0%nat 1%nat 1%nat H1 H2 H3 H4 H5).
Defined.

Lemma Get_absent_key_witness :
  let ops := [OpSet "a" (GoInt 1); OpDelete "a"; OpSet "b" (GoInt 2)] in
  NewWithShard 4 = Returned example_empty
  ∧ (∃ pre post, ops = pre ++ OpDelete "a" :: post ∧ Forall (not_set "a") post)
  ∧ Get (apply_ops ops example_empty) "a" = Returned (GoNil, false)
  ∧ Has (apply_ops ops example_empty) "a" = Returned false.
Proof.
  intros ops.
  assert (NewWithShard 4 = Returned example_empty) as Hnew by reflexivity.
  assert (∃ pre post, ops = pre ++ OpDelete "a" :: post
                      ∧ Forall (not_set "a") post) as Hops.
  { exists [OpSet "a" (GoInt 1)], [OpSet "b" (GoInt 2)].
    split; [reflexivity|]. repeat constructor. discriminate. }
  split; [exact Hnew|]. split; [exact Hops|].
  exact (Get_absent_key 4 example_empty ops "a" Hnew (or_intror Hops)).
Defined.

Lemma Set_nil_is_present_witness :
  wf example_abc
  ∧ ∃ m', Set_ example_abc "n" GoNil = Returned m'
          ∧ Get m' "n" = Returned (GoNil, true)
          ∧ Has m' "n" = Returned true.
Proof.
  split; [exact wf_example_abc|].
  destruct (Set_nil_is_present example_abc "n" wf_example_abc)
    as (m' & H1 & H2 & H3 & _).
  exists m'. exact (conj H1 (conj H2 H3)).
Defined.

(** * Further properties of the code *)

Section more_properties.
Context {V : Type} `{!ZeroValue V}.
Implicit Types (m : SyncMap V) (key k : string) (order : range_order V).

Lemma ShardMap_eta (sd : ShardMap V) : mkShardMap (items sd) = sd.
Proof. by destruct sd. Qed.

Lemma store_shard_same m i sd : shards m !! i = Some sd → store_shard m i sd = m.
Proof.
  intros Hi. destruct m as [c shs]. unfold store_shard. simpl in *.
  by rewrite list_insert_id.
Qed.

Lemma SyncMap_eq m m' :
  shardCount m = shardCount m' → shards m = shards m' → m = m'.
Proof. destruct m, m'. simpl. by intros -> ->. Qed.

Lemma Set_update_home m key value :
  wf m → Set_ m key value = Returned (update_home m key (insert key value)).
Proof.
  intros Hwf. destruct (Set_wf m key value Hwf) as (shard & Hsh & ->).
  unfold update_home. by rewrite Hsh.
Qed.

Lemma Delete_update_home m key :
  wf m → Delete m key = Returned (update_home m key (delete key)).
Proof.
  intros Hwf. destruct (Delete_wf m key Hwf) as (shard & Hsh & ->).
  unfold update_home. by rewrite Hsh.
Qed.

Lemma wf_update_home m key f : wf m → wf (update_home m key f).
Proof.
  intros Hwf. unfold update_home.
  destruct (shards m !! home m key); [by apply wf_store_shard|done].
Qed.

(** The shard at a position after an update. *)
Lemma lookup_update_home m key f i :
  wf m →
  shards (update_home m key f) !! i =
  if decide (i = home m key)
  then (fun shard => mkShardMap (f (items shard))) <$> shards m !! i
  else shards m !! i.
Proof.
  intros Hwf. unfold update_home.
  destruct (lookup_lt_is_Some_2 _ _ (home_lt m key Hwf)) as [shard Hsh].
  rewrite Hsh. simpl. case_decide as Hi.
  - subst i. rewrite list_lookup_insert_eq by (by apply home_lt).
    by rewrite Hsh.
  - by rewrite list_lookup_insert_ne.
Qed.

(** ** The constructor *)


(** ** What the operations keep *)

Lemma Set_shape m key value m' :
  Set_ m key value = Returned m' →
  shardCount m' = shardCount m ∧ length (shards m') = length (shards m).
Proof.
  unfold Set_, locate.
  destruct (slice_index _ _) as [shard| |]; simpl; [|done..].
  intros [= <-]. simpl. by rewrite length_insert.
Qed.

Lemma Delete_shape m key m' :
  Delete m key = Returned m' →
  shardCount m' = shardCount m ∧ length (shards m') = length (shards m).
Proof.
  unfold Delete, locate.
  destruct (slice_index _ _) as [shard| |]; simpl; [|done..].
  intros [= <-]. simpl. by rewrite length_insert.
Qed.

Lemma apply_op_shape o m :
  shardCount (apply_op o m) = shardCount m
  ∧ length (shards (apply_op o m)) = length (shards m).
Proof.
  destruct o as [key value|key| | | | | |draws order]; simpl; try done.
  - destruct (Set_ m key value) as [m'| |] eqn:E; [|done..].
    by apply Set_shape in E.
  - destruct (Delete m key) as [m'| |] eqn:E; [|done..].
    by apply Delete_shape in E.
  - rewrite Flush_spec. simpl. by rewrite length_replicate.
  - destruct (Pop_cases draws order m) as [[-> _]|(i & sh & k & v & _ & ->)];
      [done|]. simpl. by rewrite length_insert.
Qed.

(** X2: no operation changes the shard count or the number of shards, on any
    container and whether the calls return or panic. *)
Theorem shard_count_never_changes (ops : list (@op V)) m :
  shardCount (apply_ops ops m) = shardCount m
  ∧ length (shards (apply_ops ops m)) = length (shards m).
Proof.
  revert m. induction ops as [|o ops IH]; intros m; [done|].
  simpl. destruct (IH (apply_op o m)) as [-> ->]. apply apply_op_shape.
Qed.

(** X3: on a container made by the constructor, with any shard count it
    accepts (a power of two or not), and after any calls, the keyed
    operations return: [locate] never indexes outside the shards. *)
Theorem keyed_operations_return n m0 (ops : list (@op V)) key value parts :
  NewWithShard n = Returned m0 →
  let m := apply_ops ops m0 in
  (∃ r, Get m key = Returned r)
  ∧ (∃ b, Has m key = Returned b)
  ∧ (∃ r, GetJoinKey m parts = Returned r)
  ∧ (∃ m', Set_ m key value = Returned m')
  ∧ (∃ m', Delete m key = Returned m')
  ∧ (∃ i shard, Locate m key = Returned (i, shard)
                ∧ GetShards m !! i = Some shard).
Proof.
  intros Hnew m.
  destruct (NewWithShard_spec n m0 Hnew) as (Hwf0 & _ & _).
  pose proof (wf_apply_ops ops m0 Hwf0) as Hwf. fold m in Hwf.
  split_and!.
  - rewrite Get_stored by done. eauto.
  - rewrite Has_stored by done. eauto.
  - unfold GetJoinKey. rewrite Get_stored by done. eauto.
  - rewrite Set_update_home by done. eauto.
  - rewrite Delete_update_home by done. eauto.
  - destruct (locate_wf m key Hwf) as (shard & Hsh & Hloc). eauto.
Qed.

(** X4: on a container made by the constructor and changed only through its
    operations, every entry of every shard sits in the shard [locate] finds
    for its key, so [Get] finds it and [Has] says so. *)
Theorem stored_entries_are_found n m0 (ops : list (@op V)) i shard key value :
  NewWithShard n = Returned m0 →
  shards (apply_ops ops m0) !! i = Some shard →
  items shard !! key = Some value →
  i = home (apply_ops ops m0) key
  ∧ Get (apply_ops ops m0) key = Returned (value, true)
  ∧ Has (apply_ops ops m0) key = Returned true.
Proof.
  intros Hnew Hi Hk.
  destruct (NewWithShard_spec n m0 Hnew) as (Hwf0 & _ & _).
  pose proof (wf_apply_ops ops m0 Hwf0) as Hwf.
  pose proof (homed_apply_ops ops m0 Hwf0 (homed_NewWithShard n m0 Hnew))
    as Hhomed.
  pose proof (Hhomed i shard key Hi (mk_is_Some _ _ Hk)) as Hhome.
  assert (stored (apply_ops ops m0) key = Some value) as Hst.
  { unfold stored. rewrite Hhome, Hi. done. }
  rewrite Get_stored, Has_stored, Hst by done. done.
Qed.

(** ** Updates of one shard *)

Lemma home_update_home m key f k : home (update_home m key f) k = home m k.
Proof. unfold update_home. by destruct (shards m !! home m key). Qed.

Lemma shardCount_update_home m key f :
  shardCount (update_home m key f) = shardCount m.
Proof. unfold update_home. by destruct (shards m !! home m key). Qed.

Lemma stored_update_home m key f k :
  wf m →
  stored (update_home m key f) k =
  if decide (home m k = home m key)
  then shard ← shards m !! home m k; f (items shard) !! k
  else stored m k.
Proof.
  intros Hwf. unfold stored. rewrite home_update_home, lookup_update_home by done.
  case_decide; [|done]. by destruct (shards m !! home m k).
Qed.

Lemma update_home_compose m key f g :
  wf m → update_home (update_home m key f) key g = update_home m key (g ∘ f).
Proof.
  intros Hwf. apply SyncMap_eq; [by rewrite !shardCount_update_home|].
  apply list_eq. intros i.
  rewrite !lookup_update_home, home_update_home by (by try apply wf_update_home).
  case_decide; [|done]. by destruct (shards m !! i).
Qed.

Lemma update_home_commute m k1 k2 f g :
  wf m → (∀ x, f (g x) = g (f x)) →
  update_home (update_home m k1 f) k2 g = update_home (update_home m k2 g) k1 f.
Proof.
  intros Hwf Hcomm. apply SyncMap_eq; [by rewrite !shardCount_update_home|].
  apply list_eq. intros i.
  rewrite !lookup_update_home, !home_update_home
    by (by try apply wf_update_home).
  repeat case_decide; try done.
  destruct (shards m !! i); simpl; [|done]. by rewrite Hcomm.
Qed.

Lemma update_home_id m key f :
  wf m →
  (∀ shard, shards m !! home m key = Some shard → f (items shard) = items shard) →
  update_home m key f = m.
Proof.
  intros Hwf Hf. unfold update_home.
  destruct (shards m !! home m key) as [shard|] eqn:E; [|done].
  rewrite (Hf shard eq_refl), ShardMap_eta. by apply store_shard_same.
Qed.

Lemma Size_update_home m key f shard :
  shards m !! home m key = Some shard →
  Size (update_home m key f) = Size m - len (items shard) + len (f (items shard)).
Proof.
  intros Hsh. unfold update_home. rewrite Hsh.
  by rewrite (Size_store_shard m _ shard).
Qed.

(** ** Size and the keyed writes *)

(** X5: [Set] adds one to [Size] when the key had no entry and leaves [Size]
    as it is when it overwrites; [Delete] takes one off when the key had an
    entry and leaves [Size] as it is when it had none. *)
Theorem Size_after_Set_and_Delete m key value :
  wf m →
  (∃ m', Set_ m key value = Returned m'
         ∧ Size m' = Size m + (if stored m key is Some _ then 0 else 1))
  ∧ (∃ m', Delete m key = Returned m'
           ∧ Size m' = Size m - (if stored m key is Some _ then 1 else 0)).
Proof.
  intros Hwf.
  destruct (lookup_lt_is_Some_2 _ _ (home_lt m key Hwf)) as [shard Hsh].
  assert (stored m key = items shard !! key) as Hst.
  { unfold stored. by rewrite Hsh. }
  split; eexists.
  - split; [by apply Set_update_home|].
    rewrite (Size_update_home m key _ shard Hsh), Hst. unfold len.
    rewrite map_size_insert. destruct (items shard !! key); simpl; lia.
  - split; [by apply Delete_update_home|].
    rewrite (Size_update_home m key _ shard Hsh), Hst.
    destruct (items shard !! key) as [v|] eqn:E.
    + rewrite len_delete by done. lia.
    + rewrite delete_id by done. lia.
Qed.

Lemma stored_sets_other (kvs : list (string * V)) m k :
  wf m → k ∉ kvs.*1 →
  stored (apply_ops (sets kvs) m) k = stored m k.
Proof.
  revert m. induction kvs as [|[k' v'] kvs IH]; intros m Hwf Hk; [done|].
  rewrite fmap_cons, not_elem_of_cons in Hk. destruct Hk as [Hne Hk].
  simpl in *. rewrite Set_update_home by done.
  rewrite IH; [|by apply wf_update_home|done].
  destruct (stored_Set m k' v' _ k Hwf (Set_update_home m k' v' Hwf)) as [_ ->].
  by rewrite decide_False.
Qed.

(** X6: after [Set] calls for pairwise different keys, none of which had an
    entry, [Size] has grown by the number of calls and each key reads back
    the value set for it; from a fresh container [Size] is the number of
    keys. *)
Theorem Size_after_distinct_sets (kvs : list (string * V)) m :
  wf m → NoDup kvs.*1 → (∀ k, k ∈ kvs.*1 → stored m k = None) →
  Size (apply_ops (sets kvs) m) = Size m + Z.of_nat (length kvs)
  ∧ ∀ k v, (k, v) ∈ kvs → Get (apply_ops (sets kvs) m) k = Returned (v, true).
Proof.
  revert m. induction kvs as [|[k' v'] kvs IH]; intros m Hwf Hnd Habs.
  - split; [simpl; lia|]. by intros k v ?%elem_of_nil.
  - rewrite fmap_cons in Hnd. apply NoDup_cons in Hnd as [Hk' Hnd].
    destruct (Size_after_Set_and_Delete m k' v' Hwf) as [(m' & HSet & Hsz) _].
    rewrite (Habs k') in Hsz by (rewrite fmap_cons; left).
    destruct (stored_Set m k' v' m' k' Hwf HSet) as [Hwf' Hst'].
    rewrite decide_True in Hst' by done.
    assert (apply_ops (sets ((k', v') :: kvs)) m = apply_ops (sets kvs) m')
      as Hstep by (simpl; by rewrite HSet).
    rewrite Hstep.
    destruct (IH m' Hwf' Hnd) as [IHsz IHget].
    { intros k Hk.
      destruct (stored_Set m k' v' m' k Hwf HSet) as [_ ->].
      rewrite decide_False by (intros ->; done).
      apply Habs. rewrite fmap_cons. by right. }
    split.
    + rewrite IHsz, Hsz. rewrite length_cons. lia.
    + intros k v [[= -> ->]|Hin]%elem_of_cons; [|by apply IHget].
      rewrite Get_stored by (by apply wf_apply_ops).
      by rewrite stored_sets_other, Hst'.
Qed.

(** ** How the keyed writes compose *)

(** X7: [Delete] of a key that has no entry returns and leaves the container
    exactly as it was; hence a second [Delete] of the same key changes
    nothing. *)
Theorem Delete_absent_is_noop m key :
  wf m →
  (stored m key = None → Delete m key = Returned m)
  ∧ ∃ m', Delete m key = Returned m' ∧ Delete m' key = Returned m'.
Proof.
  intros Hwf.
  assert (∀ m0 : SyncMap V, wf m0 → stored m0 key = None →
                            Delete m0 key = Returned m0) as Hnoop.
  { intros m0 Hwf0 Hnone. rewrite Delete_update_home by done. f_equal.
    apply update_home_id; [done|]. intros shard Hsh.
    apply delete_id. unfold stored in Hnone. by rewrite Hsh in Hnone. }
  split; [by apply Hnoop|].
  eexists. split; [by apply Delete_update_home|].
  apply Hnoop; [by apply wf_update_home|].
  destruct (stored_Delete m key _ key Hwf (Delete_update_home m key Hwf))
    as [_ ->]. by rewrite decide_True.
Qed.

(** X8: the last [Set] of a key wins: [Set(k, v1)] followed by [Set(k, v2)]
    leaves the container that [Set(k, v2)] alone leaves; setting the same
    value twice is setting it once. *)
Theorem Set_last_write_wins m key (v1 v2 : V) :
  wf m →
  ∃ m1 m2, Set_ m key v1 = Returned m1
           ∧ Set_ m1 key v2 = Returned m2
           ∧ Set_ m key v2 = Returned m2.
Proof.
  intros Hwf. eexists _, _.
  split; [by apply Set_update_home|].
  rewrite !Set_update_home by (by try apply wf_update_home).
  split; [done|]. f_equal. rewrite update_home_compose by done.
  unfold update_home. destruct (shards m !! home m key); [|done].
  simpl. by rewrite insert_insert_eq.
Qed.

(** X9: writes to different keys do not depend on their order, whether the
    keys share a shard or not: two [Set]s, a [Set] and a [Delete], and two
    [Delete]s commute. *)
Theorem writes_to_different_keys_commute m k1 k2 (v1 v2 : V) :
  wf m → k1 ≠ k2 →
  (m1 ← Set_ m k1 v1; Set_ m1 k2 v2) = (m2 ← Set_ m k2 v2; Set_ m2 k1 v1)
  ∧ (m1 ← Set_ m k1 v1; Delete m1 k2) = (m2 ← Delete m k2; Set_ m2 k1 v1)
  ∧ (m1 ← Delete m k1; Delete m1 k2) = (m2 ← Delete m k2; Delete m2 k1)
  ∧ ∃ m', (m1 ← Set_ m k1 v1; Set_ m1 k2 v2) = Returned m'.
Proof.
  intros Hwf Hne.
  rewrite !Set_update_home, !Delete_update_home by done. simpl.
  rewrite !Set_update_home, !Delete_update_home by (by apply wf_update_home).
  split_and!; [f_equal..|eauto]; apply update_home_commute; try done; intros x.
  - by apply insert_insert_ne.
  - by rewrite delete_insert_ne.
  - apply delete_delete.
Qed.

(** X10: [Set] of a key that had no entry, followed by [Delete] of that key,
    gives back the container as it was. *)
Theorem Set_then_Delete_restores m key value :
  wf m → stored m key = None →
  ∃ m1, Set_ m key value = Returned m1 ∧ Delete m1 key = Returned m.
Proof.
  intros Hwf Hnone. eexists. split; [by apply Set_update_home|].
  rewrite Delete_update_home by (by apply wf_update_home). f_equal.
  rewrite update_home_compose by done.
  apply update_home_id; [done|]. intros shard Hsh. simpl.
  rewrite delete_insert_eq. apply delete_id.
  unfold stored in Hnone. by rewrite Hsh in Hnone.
Qed.

(** ** After Flush *)




(** ** Traversals *)

Lemma visit_until_fmap {A B S} (g : A → B) (iter : B → S → S * bool)
    (l : list A) (s : S) :
  visit_until iter (g <$> l) s = visit_until (fun a => iter (g a)) l s.
Proof.
  revert s. induction l as [|a l IH]; intros s; simpl; [done|].
  destruct (iter (g a) s) as [s1 [|]]; [apply IH|done].
Qed.

(** X12: the key traversal is the item traversal seen through the keys: with
    the same [range] orders, [EachKeyWithBreak] with a visitor of keys does
    what [EachItemWithBreak] does with that visitor applied to the key of
    each item, early exit included. *)
Theorem EachKeyWithBreak_is_EachItemWithBreak_on_keys {S} order m
    (iter : string → S → S * bool) (s : S) :
  EachKeyWithBreak order m iter s
  = EachItemWithBreak order m (fun item => iter (Key item)) s.
Proof.
  rewrite EachKeyWithBreak_flat, EachItemWithBreak_flat.
  by rewrite !visit_until_fmap.
Qed.

Lemma visit_until_log_all {A} (l log : list A) :
  visit_until (fun a log => (log ++ [a], true)) l log = log ++ l.
Proof.
  revert log. induction l as [|a l IH]; intros log; simpl.
  - by rewrite app_nil_r.
  - by rewrite IH, <-app_assoc.
Qed.

(** X13: [EachKeyWithBreak] with a visitor that never stops is called on the
    keys of all shards, a rearrangement of the keys the shards hold. On a
    container made by the constructor and changed by its operations no key
    comes twice, and the keys visited are those for which [Has] says
    [true]. *)
Theorem EachKeyWithBreak_visits_every_key order m :
  range_ok order →
  let visited := EachKeyWithBreak order m (fun key log => (log ++ [key], true)) []
  in
  visited = (traversal order m).*1
  ∧ visited ≡ₚ (entries m).*1
  ∧ ∀ n m0 ops,
      NewWithShard n = Returned m0 → m = apply_ops ops m0 →
      NoDup visited ∧ ∀ key, key ∈ visited ↔ Has m key = Returned true.
Proof.
  intros Hok visited.
  assert (visited = (traversal order m).*1) as Hvis.
  { unfold visited. by rewrite EachKeyWithBreak_flat, visit_until_log_all. }
  assert (traversal order m ≡ₚ entries m) as Hperm
    by (by apply traversal_from_perm).
  split_and!; [done|by rewrite Hvis, Hperm|].
  intros n m0 ops Hnew Hm. rewrite Hvis. clear Hvis visited.
  destruct (NewWithShard_spec n m0 Hnew) as (Hwf0 & _ & _).
  pose proof (wf_apply_ops ops m0 Hwf0) as Hwf.
  pose proof (homed_apply_ops ops m0 Hwf0 (homed_NewWithShard n m0 Hnew))
    as Hhomed.
  rewrite <-Hm in Hwf, Hhomed. split.
  - rewrite Hperm. apply (NoDup_entries_of_keys (home m) 0%nat).
    intros j shard k Hj Hk. by apply (Hhomed j shard k).
  - intros key. rewrite Hperm, Has_stored by done.
    rewrite list_elem_of_fmap. split.
    + intros ([k v] & -> & Hin). apply homed_entries in Hin; [|done..].
      simpl. by rewrite Hin.
    + intros [= Hb]. apply bool_decide_eq_true in Hb as [v Hv].
      exists (key, v). split; [done|]. by apply homed_entries.
Qed.

Lemma length_entries_of (shs : list (ShardMap V)) :
  Z.of_nat (length (entries_of shs)) = sum_len shs.
Proof.
  induction shs as [|sh shs IH]; [done|].
  change (entries_of (sh :: shs))
    with (map_to_list (items sh) ++ entries_of shs).
  rewrite length_app, sum_len_cons, Nat2Z.inj_add, IH.
  unfold len. by rewrite length_map_to_list.
Qed.

(** X14: [Size] is the number of entries the shards hold, and a full
    traversal makes that many calls: a visitor of [EachItem] that counts its
    calls ends at [Size]. *)
Theorem EachItem_makes_Size_calls order m :
  range_ok order →
  Size m = Z.of_nat (length (entries m))
  ∧ EachItem order m (fun _ calls => calls + 1) 0 = Size m
  ∧ Z.of_nat (length (EachItem order m (fun item log => log ++ [item]) []))
    = Size m.
Proof.
  intros Hok.
  assert (Size m = Z.of_nat (length (entries m))) as Hsize
    by (symmetry; apply length_entries_of).
  assert (length (traversal order m) = length (entries m)) as Hlen.
  { apply Permutation_length. by apply traversal_from_perm. }
  unfold EachItem. rewrite !EachItemWithBreak_flat, !visit_until_always.
  rewrite fold_left_log, app_nil_l, length_fmap, Hlen.
  split_and!; [done| |done].
  rewrite Hsize, <-Hlen, <-(length_fmap item_of).
  generalize (item_of <$> traversal order m). intros l.
  assert (∀ c, fold_left (fun (s : Z) (_ : Item V) => s + 1) l c
               = c + Z.of_nat (length l)) as Hcount; [|by rewrite Hcount].
  induction l as [|a l IH]; intros c; simpl; [lia|]. rewrite IH. lia.
Qed.

(** ** Shard counts that are not powers of two *)

Lemma zero_bit_below (a : Z) (k : nat) :
  (∀ j, 0 ≤ j < Z.of_nat k → Z.testbit a j = true)
  ∨ ∃ j, 0 ≤ j < Z.of_nat k ∧ Z.testbit a j = false.
Proof.
  induction k as [|k [IH|(j & Hj & Hbit)]].
  - left. intros j Hj. lia.
  - destruct (Z.testbit a (Z.of_nat k)) eqn:E.
    + left. intros j Hj.
      destruct (decide (j = Z.of_nat k)) as [->|Hne]; [done|]. apply IH. lia.
    + right. exists (Z.of_nat k). split; [lia|done].
  - right. exists j. split; [lia|done].
Qed.

(** X15: the mask [shardCount - 1] lets through only its own bits. With a
    shard count up to 2^32 that is not a power of two, some shard of the
    container is therefore the shard of no key at all: [locate] never finds
    it, and no keyed operation ever reads or writes it. *)
Theorem non_power_of_two_leaves_a_shard_unused (n : Z) :
  0 < n ≤ 2 ^ 32 →
  (∀ e : Z, 0 ≤ e → n ≠ 2 ^ e) →
  ∃ i, 0 ≤ i < n ∧ ∀ key, shard_index n key ≠ i.
Proof.
  intros Hn Hnp.
  assert (n ≠ 1) as Hn1 by (apply (Hnp 0); lia).
  set (a := n - 1).
  assert (0 < a) as Ha by (unfold a; lia).
  assert (uint32 a = a) as Hmask by (apply uint32_small; unfold a; lia).
  pose proof (Z.log2_nonneg a) as Hlog.
  pose proof (Z.log2_spec a Ha) as [Hlo Hhi].
  destruct (zero_bit_below a (Z.to_nat (Z.succ (Z.log2 a))))
    as [Hall|(j & Hj & Hbit)].
  - exfalso. apply (Hnp (Z.succ (Z.log2 a))); [lia|].
    assert (a = Z.ones (Z.succ (Z.log2 a))) as Hones.
    { apply Z.bits_inj'. intros idx Hidx.
      destruct (decide (idx < Z.succ (Z.log2 a))) as [Hlt|Hge].
      - rewrite Z.ones_spec_low by lia. apply Hall. lia.
      - rewrite Z.ones_spec_high by lia. apply Z.bits_above_log2; lia. }
    rewrite Z.ones_equiv in Hones. unfold a in Hones |- *. lia.
  - exists (2 ^ j).
    assert (2 ^ j ≤ 2 ^ Z.log2 a) by (apply Z.pow_le_mono_r; lia).
    assert (0 < 2 ^ j) by (apply Z.pow_pos_nonneg; lia).
    split; [unfold a in *; lia|].
    intros key Heq. unfold shard_index in Heq. fold a in Heq.
    rewrite Hmask in Heq.
    assert (Z.testbit (2 ^ j) j = true) as Hone by (apply Z.pow2_bits_true; lia).
    rewrite <-Heq, Z.land_spec, Hbit, andb_false_r in Hone. done.
Qed.

(** ** Joined keys *)

Lemma concat_cons_nonempty (sep x : string) (l : list string) :
  l ≠ [] → String.concat sep (x :: l) = x +:+ sep +:+ String.concat sep l.
Proof. by destruct l. Qed.

Lemma concat_merge (sep a b : string) (p q : list string) :
  String.concat sep (p ++ (a +:+ sep +:+ b) :: q)
  = String.concat sep (p ++ a :: b :: q).
Proof.
  induction p as [|x p IH].
  - rewrite !app_nil_l. destruct q as [|c q].
    + done.
    + rewrite (concat_cons_nonempty sep a (b :: c :: q)) by done.
      rewrite (concat_cons_nonempty sep b (c :: q)) by done.
      rewrite (concat_cons_nonempty sep (a +:+ sep +:+ b) (c :: q)) by done.
      by rewrite !append_assoc.
  - rewrite <-!app_comm_cons.
    rewrite !(concat_cons_nonempty sep x) by (by destruct p).
    by rewrite IH.
Qed.

(** X16: [GetJoinKey] with no part reads the empty key, with one part reads
    that part, and does not escape the separator: a part [a-b] and the two
    parts [a], [b] in its place give the same key, so the two calls read the
    same entry. *)
Theorem GetJoinKey_does_not_escape m :
  GetJoinKey m [] = Get m ""
  ∧ (∀ key, GetJoinKey m [key] = Get m key)
  ∧ ∀ (p q : list string) (a b : string),
      GetJoinKey m (p ++ (a +:+ "-" +:+ b) :: q)
      = GetJoinKey m (p ++ a :: b :: q).
Proof.
  split_and!; [done..|].
  intros p q a b. unfold GetJoinKey.
  by rewrite !strings_Join_concat, concat_merge.
Qed.

(** ** Pop and the other operations *)

(** X17: a [Pop] that returns a key leaves every other key as it was:
    [Get] of any other key answers after the call what it answered before. *)
Theorem Pop_changes_no_other_key draws order m key value :
  wf m →
  fst (Pop draws order m) = Returned (key, value) →
  ∀ k, k ≠ key → Get (snd (Pop draws order m)) k = Get m k.
Proof.
  intros Hwf Hpop k Hne.
  rewrite !Get_stored by (by try apply wf_Pop).
  destruct (stored_Pop draws order m k) as [Hkeep _].
  rewrite Hkeep; [done|]. rewrite Hpop. simpl. congruence.
Qed.

Lemma existsb_elem_of {A} (f : A → bool) (l : list A) x :
  x ∈ l → f x = true → existsb f l = true.
Proof.
  intros Hin Hx. apply existsb_exists. exists x.
  split; [by apply list_elem_of_In|done].
Qed.

(** X18: on a container with no entries, [Set(key, value)] followed by a
    [Pop] whose draws reach the shard of the key returns exactly
    [(key, value)] and gives back the container as it was. *)
Theorem Set_then_Pop_round_trip draws order m key value :
  wf m →
  Forall (fun shard => items shard = ∅) (shards m) →
  range_ok order →
  Forall (fun d => 0 ≤ d < shardCount m) draws →
  shard_index (shardCount m) key ∈ draws →
  ∃ m1, Set_ m key value = Returned m1
        ∧ Pop draws order m1 = (Returned (key, value), m).
Proof.
  intros Hwf Hempty Hok Hvalid Hin.
  exists (update_home m key (insert key value)).
  split; [by apply Set_update_home|].
  set (m1 := update_home m key (insert key value)).
  assert (wf m1) as Hwf1 by (by apply wf_update_home).
  destruct (lookup_lt_is_Some_2 _ _ (home_lt m key Hwf)) as [sd Hsd].
  assert (items sd = ∅) as Hsd0.
  { rewrite Forall_lookup in Hempty. by apply (Hempty _ _ Hsd). }
  assert (shardCount m1 = shardCount m) as Hc
    by apply shardCount_update_home.
  assert (Size m1 ≠ 0) as Hsize.
  { unfold m1. rewrite (Size_update_home m key _ sd Hsd), Hsd0.
    assert (Size m = 0) as -> by (by apply Size_zero_iff).
    unfold len. rewrite map_size_insert_None, map_size_empty by done. lia. }
  assert (existsb (draw_hits m1) draws = true) as Hhit.
  { apply (existsb_elem_of _ _ _ Hin). apply draw_hits_spec.
    destruct Hwf as [Hpos Hlen].
    pose proof (shard_index_range (shardCount m) key Hpos) as Hr.
    exists (mkShardMap (<[key := value]> (items sd))). split.
    - apply slice_index_lookup. split; [lia|].
      unfold m1. rewrite lookup_update_home by done.
      rewrite decide_True by done. fold (home m key). by rewrite Hsd.
    - simpl. unfold len. rewrite Hsd0, map_size_insert_None by done. lia. }
  rewrite <-Hc in Hvalid.
  destruct (Pop_loop_hit draws order m1 Hwf1 Hok Hvalid Hhit)
    as (k' & v' & i & shard & Hi & Hk & Hloop).
  unfold Pop. rewrite decide_False by done. rewrite Hloop.
  unfold m1 in Hi. rewrite lookup_update_home in Hi by done.
  case_decide as Hhome.
  - subst i. rewrite Hsd in Hi. simpl in Hi. injection Hi as <-.
    simpl in Hk. rewrite Hsd0 in Hk.
    apply lookup_insert_Some in Hk as [[<- <-]|[_ Hk]]; [|done].
    f_equal. simpl. rewrite delete_insert_eq, Hsd0, delete_empty.
    unfold m1, update_home. rewrite Hsd.
    apply SyncMap_eq; simpl; [done|].
    rewrite list_insert_insert_eq. apply list_insert_id.
    rewrite Hsd. f_equal. rewrite <-Hsd0. by rewrite ShardMap_eta.
  - rewrite Forall_lookup in Hempty. rewrite (Hempty _ _ Hi) in Hk. done.
Qed.

(** ** The methods of a shard *)

(** X19: on one shard, a key reads back the value set for it and reads as
    absent after its delete, and a write of one key leaves the reading of
    every other key as it was; so for the locked and for the unlocked
    methods. *)
Theorem shard_set_get_delete (sd : ShardMap V) key (val : V) :
  GetNotLock (SetNotLock sd key val) key = (val, true)
  ∧ GetWithLock (SetWithLock sd key val) key = (val, true)
  ∧ GetNotLock (DeleteNotLock sd key) key = (nil_value, false)
  ∧ GetWithLock (DeleteWithLock sd key) key = (nil_value, false)
  ∧ GetItems (DeleteNotLock (SetNotLock sd key val) key)
    = GetItems (DeleteNotLock sd key)
  ∧ ∀ k, k ≠ key →
      GetNotLock (SetNotLock sd key val) k = GetNotLock sd k
      ∧ GetWithLock (SetWithLock sd key val) k = GetWithLock sd k
      ∧ GetNotLock (DeleteNotLock sd key) k = GetNotLock sd k
      ∧ GetWithLock (DeleteWithLock sd key) k = GetWithLock sd k.
Proof.
  unfold GetNotLock, GetWithLock, SetNotLock, SetWithLock, DeleteNotLock,
    DeleteWithLock, GetItems, map_index. simpl.
  rewrite lookup_insert_eq, lookup_delete_eq, delete_insert_eq.
  split_and!; [done..|].
  intros k Hne. by rewrite lookup_insert_ne, lookup_delete_ne.
Qed.


End more_properties.

(** ** The further properties at work on the examples *)

Lemma keyed_operations_return_witness :
  NewWithShard 3 = Returned example_three
  ∧ (∃ r, Get (apply_ops [OpSet "a" (GoInt 1)] example_three) "b" = Returned r)
  ∧ (∃ m', Set_ (apply_ops [OpSet "a" (GoInt 1)] example_three) "b" GoNil
           = Returned m').
Proof.
  assert (NewWithShard 3 = Returned example_three) as Hnew by reflexivity.
  split; [exact Hnew|].
  destruct (keyed_operations_return 3 example_three [OpSet "a" (GoInt 1)]
              "b" GoNil [] Hnew) as (H1 & _ & _ & H2 & _).
  exact (conj H1 H2).
Defined.

Lemma stored_entries_are_found_witness :
  let ops := [OpSet "a" (GoInt 1); OpSet "b" (GoInt 2); OpSet "c" (GoInt 3)] in
  let shard := mkShardMap {[ "b"%string := GoInt 2 ]} in
  NewWithShard 4 = Returned example_empty
  ∧ shards (apply_ops ops example_empty) !! 1%nat = Some shard
  ∧ items shard !! "b"%string = Some (GoInt 2)
  ∧ Get (apply_ops ops example_empty) "b" = Returned (GoInt 2, true).
Proof.
  intros ops shard.
  assert (NewWithShard 4 = Returned example_empty) as Hnew by reflexivity.
  assert (shards (apply_ops ops example_empty) !! 1%nat = Some shard) as Hi
    by reflexivity.
  assert (items shard !! "b"%string = Some (GoInt 2)) as Hk by reflexivity.
  split; [exact Hnew|]. split; [exact Hi|]. split; [exact Hk|].
  destruct (stored_entries_are_found 4 example_empty ops 1%nat shard "b"
              (GoInt 2) Hnew Hi Hk) as (_ & H & _).
  exact H.
Defined.

Lemma Size_after_Set_and_Delete_witness :
  wf example_abc
  ∧ (∃ m', Set_ example_abc "b" (GoInt 7) = Returned m' ∧ Size m' = 3)
  ∧ (∃ m', Delete example_abc "b" = Returned m' ∧ Size m' = 2).
Proof.
  split; [exact wf_example_abc|].
  exact (Size_after_Set_and_Delete example_abc "b" (GoInt 7) wf_example_abc).
Defined.

Lemma Size_after_distinct_sets_witness :
  let kvs := [("a"%string, GoInt 1); ("b"%string, GoInt 2);
              ("c"%string, GoInt 3)] in
  wf example_empty
  ∧ NoDup kvs.*1
  ∧ (∀ k, k ∈ kvs.*1 → stored example_empty k = None)
  ∧ Size (apply_ops (sets kvs) example_empty) = 3.
Proof.
  intros kvs.
  assert (NoDup kvs.*1) as Hnd
    by (apply (bool_decide_unpack _); vm_compute; exact I).
  assert (∀ k, k ∈ kvs.*1 → stored example_empty k = None) as Habs.
  { intros k _. apply stored_empty. repeat constructor. }
  split; [exact wf_example_empty|]. split; [exact Hnd|]. split; [exact Habs|].
  destruct (Size_after_distinct_sets kvs example_empty wf_example_empty
              Hnd Habs) as [H _].
  exact H.
Defined.

Lemma Delete_absent_is_noop_witness :
  wf example_abc
  ∧ stored example_abc "z" = None
  ∧ Delete example_abc "z" = Returned example_abc.
Proof.
  assert (stored example_abc "z" = None) as Hnone by reflexivity.
  split; [exact wf_example_abc|]. split; [exact Hnone|].
  destruct (Delete_absent_is_noop example_abc "z" wf_example_abc) as [H _].
  exact (H Hnone).
Defined.

Lemma Set_last_write_wins_witness :
  wf example_abc
  ∧ ∃ m1 m2, Set_ example_abc "a" (GoInt 8) = Returned m1
             ∧ Set_ m1 "a" (GoInt 9) = Returned m2
             ∧ Set_ example_abc "a" (GoInt 9) = Returned m2.
Proof.
  split; [exact wf_example_abc|].
  exact (Set_last_write_wins example_abc "a" (GoInt 8) (GoInt 9) wf_example_abc).
Defined.

Lemma writes_to_different_keys_commute_witness :
  wf example_abc ∧ "a"%string ≠ "e"%string
  ∧ (m1 ← Set_ example_abc "a" (GoInt 8); Set_ m1 "e" (GoInt 9))
    = (m2 ← Set_ example_abc "e" (GoInt 9); Set_ m2 "a" (GoInt 8)).
Proof.
  assert ("a"%string ≠ "e"%string) as Hne by discriminate.
  split; [exact wf_example_abc|]. split; [exact Hne|].
  destruct (writes_to_different_keys_commute example_abc "a" "e" (GoInt 8)
              (GoInt 9) wf_example_abc Hne) as [H _].
  exact H.
Defined.

Lemma Set_then_Delete_restores_witness :
  wf example_abc ∧ stored example_abc "z" = None
  ∧ ∃ m1, Set_ example_abc "z" (GoString "last") = Returned m1
          ∧ Delete m1 "z" = Returned example_abc.
Proof.
  assert (stored example_abc "z" = None) as Hnone by reflexivity.
  split; [exact wf_example_abc|]. split; [exact Hnone|].
  exact (Set_then_Delete_restores example_abc "z" (GoString "last")
           wf_example_abc Hnone).
Defined.

Lemma EachKeyWithBreak_visits_every_key_witness :
  range_ok (@order_listed go_value)
  ∧ EachKeyWithBreak order_listed example_abc
      (fun key log => (log ++ [key], true)) []
    ≡ₚ (entries example_abc).*1.
Proof.
  split; [exact range_ok_order_listed|].
  destruct (EachKeyWithBreak_visits_every_key order_listed example_abc
              range_ok_order_listed) as (_ & H & _).
  exact H.
Defined.

Lemma EachItem_makes_Size_calls_witness :
  range_ok (@order_listed go_value)
  ∧ EachItem order_listed example_abc (fun _ calls => calls + 1) 0
    = Size example_abc.
Proof.
  split; [exact range_ok_order_listed|].
  destruct (EachItem_makes_Size_calls order_listed example_abc
              range_ok_order_listed) as (_ & H & _).
  exact H.
Defined.

Lemma three_is_no_power_of_two : ∀ e : Z, 0 ≤ e → 3 ≠ 2 ^ e.
Proof.
  intros e He Heq.
  destruct (decide (e ≤ 1)) as [Hle|Hgt].
  - assert (e = 0 ∨ e = 1) as [-> | ->] by lia; discriminate.
  - assert (2 ^ 2 ≤ 2 ^ e) by (apply Z.pow_le_mono_r; lia). lia.
Defined.

Lemma non_power_of_two_leaves_a_shard_unused_witness :
  0 < 3 ≤ 2 ^ 32
  ∧ (∀ e : Z, 0 ≤ e → 3 ≠ 2 ^ e)
  ∧ ∃ i, 0 ≤ i < 3 ∧ ∀ key, shard_index 3 key ≠ i.
Proof.
  assert (0 < 3 ≤ 2 ^ 32) as Hn by lia.
  split; [exact Hn|]. split; [exact three_is_no_power_of_two|].
  exact (non_power_of_two_leaves_a_shard_unused 3 Hn three_is_no_power_of_two).
Defined.

Lemma Pop_changes_no_other_key_witness :
  wf example_abc
  ∧ fst (Pop [3; 1] order_listed example_abc) = Returned ("b"%string, GoInt 2)
  ∧ ∀ k, k ≠ "b"%string →
         Get (snd (Pop [3; 1] order_listed example_abc)) k = Get example_abc k.
Proof.
  assert (fst (Pop [3; 1] order_listed example_abc)
          = Returned ("b"%string, GoInt 2)) as Hpop by reflexivity.
  split; [exact wf_example_abc|]. split; [exact Hpop|].
  exact (Pop_changes_no_other_key [3; 1] order_listed example_abc "b"
           (GoInt 2) wf_example_abc Hpop).
Defined.

Lemma Set_then_Pop_round_trip_witness :
  wf example_empty
  ∧ Forall (fun shard => items shard = ∅) (shards example_empty)
  ∧ range_ok (@order_listed go_value)
  ∧ Forall (fun d => 0 ≤ d < shardCount example_empty) [1; 2]
  ∧ shard_index (shardCount example_empty) "a" ∈ [1; 2]
  ∧ ∃ m1, Set_ example_empty "a" (GoInt 1) = Returned m1
          ∧ Pop [1; 2] order_listed m1
            = (Returned ("a"%string, GoInt 1), example_empty).
Proof.
  assert (Forall (fun shard : ShardMap go_value => items shard = ∅)
            (shards example_empty)) as Hempty by (repeat constructor).
  assert (Forall (fun d => 0 ≤ d < shardCount example_empty) [1; 2]) as Hvalid
    by (repeat constructor; vm_compute; discriminate).
  assert (shard_index (shardCount example_empty) "a" ∈ [1; 2]) as Hin.
  { change (2 ∈ [1; 2]). right. left. }
  split; [exact wf_example_empty|]. split; [exact Hempty|].
  split; [exact range_ok_order_listed|]. split; [exact Hvalid|].
  split; [exact Hin|].
  exact (Set_then_Pop_round_trip [1; 2] order_listed example_empty "a"
           (GoInt 1) wf_example_empty Hempty range_ok_order_listed Hvalid Hin).
Defined.

